(** * raon-monorepo: the coffee suggestion route and the contentlayer pipeline

    A shallow embedding of
    - [apps/coffee/app/routes/coffee.suggestion.tsx]: the client-side
      [formSchema], the server-side [CoffeeInfoDTO] and the route [action];
    - [contentlayer.config.ts]: the two document types with their
      [filePathPattern]s and the two inline rehype visitors that carry code
      block annotations across the syntax highlighter.

    JavaScript values are modelled by [jsval]; objects are finite maps from
    property names to values.  The zod combinators the route uses
    ([z.string], [min], [refine], [optional], [z.object], [parse]) are
    modelled with zod's three-way outcome (valid, dirty, aborted). *)

From Stdlib Require Import ZArith String Ascii DecimalString List Bool Lia.
From Stdlib Require DecimalPos DecimalZ.
From stdpp Require Import base option gmap strings list.

Set Warnings "-register-all".
Local Open Scope string_scope.
Local Open Scope list_scope.

(* ===================================================================== *)
(** ** JavaScript values *)
(* ===================================================================== *)

Module Js.

(** Numbers are the integer-valued ones (identifiers, counters); arrays are
    not told apart from other objects, which none of the modelled code
    does either.  [JObj] maps own property names to values. *)
Inductive jsval : Type :=
  | JUndefined
  | JNull
  | JBool (b : bool)
  | JNum (z : Z)
  | JStr (s : string)
  | JObj (props : gmap string jsval).

(** ToBoolean. *)
Definition truthy (v : jsval) : bool :=
  match v with
  | JUndefined | JNull => false
  | JBool b => b
  | JNum z => negb (z =? 0)%Z
  | JStr s => negb (String.eqb s "")
  | JObj _ => true
  end.

Definition nullish (v : jsval) : bool :=
  match v with
  | JUndefined | JNull => true
  | _ => false
  end.

(** [a || b]. *)
Definition or_else (a b : jsval) : jsval := if truthy a then a else b.

(** ToString, as a template literal applies it.  The numbers of the
    model are the integers: they stand for the numbers that are safe
    integers, strictly between [-2^53] and [2^53], which ToString prints
    with all their digits; properties that depend on the text of a number
    are stated for safe integers. *)
Definition to_string (v : jsval) : string :=
  match v with
  | JUndefined => "undefined"
  | JNull => "null"
  | JBool true => "true"
  | JBool false => "false"
  | JNum z => NilZero.string_of_int (Z.to_int z)
  | JStr s => s
  | JObj _ => "[object Object]"
  end.

(** [v[k]] and [v.k] on a value that is not null or undefined: own
    properties of objects, [undefined] on primitives (the names read by the
    modelled code are not on the built-in prototypes). *)
Definition get (v : jsval) (k : string) : jsval :=
  match v with
  | JObj m => default JUndefined (m !! k)
  | _ => JUndefined
  end.

(** [k in v] for an object [v]. *)
Definition has (v : jsval) (k : string) : bool :=
  match v with
  | JObj m => bool_decide (is_Some (m !! k))
  | _ => false
  end.

Definition is_object (v : jsval) : bool :=
  match v with
  | JObj _ => true
  | _ => false
  end.

(** [s.split(sep)] for a one-character separator: the pieces between the
    separators, always at least one piece. *)
Fixpoint split (sep : ascii) (s : string) : list string :=
  match s with
  | EmptyString => [EmptyString]
  | String c s' =>
      if Ascii.eqb c sep then EmptyString :: split sep s'
      else match split sep s' with
           | t :: ts => String c t :: ts
           | [] => [String c EmptyString]
           end
  end.

(** [l.join(sep)]. *)
Fixpoint join (sep : string) (l : list string) : string :=
  match l with
  | [] => EmptyString
  | [t] => t
  | t :: rest => t +:+ sep +:+ join sep rest
  end.

(** Occurrences of a character in a string. *)
Fixpoint occurrences (c : ascii) (s : string) : nat :=
  match s with
  | EmptyString => 0
  | String d s' => (if Ascii.eqb d c then 1 else 0) + occurrences c s'
  end.

Definition includes (c : ascii) (s : string) : bool :=
  negb (Nat.eqb (occurrences c s) 0).

End Js.

Import Js.

(* ===================================================================== *)
(** ** The zod combinators used by the route *)
(* ===================================================================== *)

Module Zod.

Inductive ZodIssueCode := invalid_type | too_small | custom.

Record ZodIssue := mkIssue {
  code : ZodIssueCode;
  path : list string;
  message : string;
}.

(** The outcome of [_parse]: the issues raised so far, and the value unless
    parsing was aborted.  A value together with issues is zod's dirty
    status. *)
Definition ParseReturn (A : Type) : Type := (list ZodIssue * option A)%type.

Definition schema (A : Type) : Type := jsval -> ParseReturn A.

(** [getParsedType], as the default error map prints it. *)
Definition parsed_type (v : jsval) : string :=
  match v with
  | JUndefined => "undefined"
  | JNull => "null"
  | JBool _ => "boolean"
  | JNum _ => "number"
  | JStr _ => "string"
  | JObj _ => "object"
  end.

(** The default error map for [invalid_type]. *)
Definition invalid_type_issue (expected : string) (v : jsval) : ZodIssue :=
  mkIssue invalid_type []
    (match v with
     | JUndefined => "Required"
     | _ => "Expected " +:+ expected +:+ ", received " +:+ parsed_type v
     end).

(** [z.string()]: anything but a string aborts. *)
Definition z_string : schema string := fun v =>
  match v with
  | JStr s => ([], Some s)
  | _ => ([invalid_type_issue "string" v], None)
  end.

(** [.min(n, msg)] on a string schema: a check of [ZodString], run only
    when the type check passed; a failed check leaves the value dirty.
    The length is counted in code units; for [n = 1] the check holds of
    exactly the non-empty strings in any encoding. *)
Definition min (n : nat) (msg : string) (sch : schema string) : schema string :=
  fun v =>
    match sch v with
    | (iss, Some s) =>
        if Nat.ltb (String.length s) n
        then (iss ++ [mkIssue too_small [] msg], Some s)
        else (iss, Some s)
    | (iss, None) => (iss, None)
    end.

(** [.refine(check, msg)]: [ZodEffects] with a refinement.  The inner schema
    runs first; if it aborted the refinement is skipped, otherwise it runs
    on the value, also on a dirty one. *)
Definition refine {A} (check : A -> bool) (msg : string) (sch : schema A)
  : schema A :=
  fun v =>
    match sch v with
    | (iss, Some a) =>
        if check a then (iss, Some a)
        else (iss ++ [mkIssue custom [] msg], Some a)
    | (iss, None) => (iss, None)
    end.

(** [.optional()]: [undefined] is accepted as it is. *)
Definition optional {A} (sch : schema A) : schema (option A) := fun v =>
  match v with
  | JUndefined => ([], Some None)
  | _ => let '(iss, a) := sch v in (iss, Some <$> a)
  end.

(** Building the result of a [z.object]: each key is parsed, the issues of
    all keys are collected, and the object is aborted when a key is. *)
Definition pure {A} (a : A) : ParseReturn A := ([], Some a).

Definition ap {A B} (f : ParseReturn (A -> B)) (x : ParseReturn A)
  : ParseReturn B :=
  (f.1 ++ x.1,
   match f.2, x.2 with
   | Some g, Some a => Some (g a)
   | _, _ => None
   end).

Definition under (key : string) (i : ZodIssue) : ZodIssue :=
  mkIssue (code i) (key :: path i) (message i).

(** The value found at [key], parsed by [sch], its issues placed under
    [key]. *)
Definition prop {A} (key : string) (sch : schema A) (v : jsval)
  : ParseReturn A :=
  let '(iss, a) := sch v in (under key <$> iss, a).

(** [z.object(shape)]: the input has to be an object; [body] parses the
    keys of the shape. *)
Definition z_object {A} (body : jsval -> ParseReturn A) : schema A := fun v =>
  if is_object v then body v
  else ([invalid_type_issue "object" v], None).

Inductive SafeParseReturn (A : Type) :=
  | success (data : A)
  | failure (error : list ZodIssue).
Arguments success {A} data.
Arguments failure {A} error.

(** [safeParse]: success only for the valid status. *)
Definition safeParse {A} (r : ParseReturn A) : SafeParseReturn A :=
  match r with
  | ([], Some a) => success a
  | (iss, _) => failure iss
  end.

Definition is_success {A} (r : SafeParseReturn A) : bool :=
  match r with
  | success _ => true
  | failure _ => false
  end.

End Zod.

Import Zod.

Notation "f <*> x" := (Zod.ap f x) (at level 61, left associativity).

(* ===================================================================== *)
(** ** coffee.suggestion.tsx: the form schema *)
(* ===================================================================== *)

(** [z.infer<typeof formSchema>]. *)
Record FormValues := mkFormValues {
  name_kr : string;
  name_en : string;
  note : string;
  region : option string;
  farm : option string;
  variety : option string;
  process : option string;
  source : option string;
}.

Definition name_kr_required : string :=
  "이름(한글)은 필수 입력 사항입니다.".
Definition note_required : string := "노트는 필수 입력 사항입니다.".
Definition note_comma_separated : string :=
  "노트는 쉼표(,)로 구분하여 입력해주세요.".

Definition comma : ascii := ","%char.

(** The refinement on [note]: [note.split(",").length > 1]. *)
Definition note_refinement (note : string) : bool :=
  Nat.ltb 1 (length (split comma note)).

Definition name_kr_schema : schema string := min 1 name_kr_required z_string.

Definition note_schema : schema string :=
  refine note_refinement note_comma_separated (min 1 note_required z_string).

Definition formSchema : schema FormValues :=
  z_object (fun data =>
    pure mkFormValues
      <*> prop "name_kr" name_kr_schema (get data "name_kr")
      <*> prop "name_en" z_string (get data "name_en")
      <*> prop "note" note_schema (get data "note")
      <*> prop "region" (optional z_string) (get data "region")
      <*> prop "farm" (optional z_string) (get data "farm")
      <*> prop "variety" (optional z_string) (get data "variety")
      <*> prop "process" (optional z_string) (get data "process")
      <*> prop "source" (optional z_string) (get data "source")).

(** [zodResolver(formSchema)] under [form.handleSubmit(onSubmit)]: [onSubmit]
    is called with the parsed values when the schema accepts the input;
    otherwise the issues are shown per field and nothing is submitted. *)
Definition resolve (input : jsval) : SafeParseReturn FormValues :=
  safeParse (formSchema input).

Definition form_accepts (input : jsval) : Prop :=
  exists values, resolve input = success values.

(* ===================================================================== *)
(** ** coffee.suggestion.tsx: the server action *)
(* ===================================================================== *)

(** The members of the enum [CoffeeInfoField] the route names.  The enum
    itself is declared in [../types/coffee]. *)
Inductive CoffeeInfoField :=
  | ID | USER_SUBMITTED
  | NAME_KR | NAME_EN | NOTE | REGION | FARM | VARIETY | PROCESS | SOURCE.

(** [Omit<CoffeeInfo, CoffeeInfoField.ID | CoffeeInfoField.USER_SUBMITTED>]:
    one string per remaining member of the enum. *)
Record CoffeeInfo := mkCoffeeInfo {
  info_name_kr : string;
  info_name_en : string;
  info_note : string;
  info_region : string;
  info_farm : string;
  info_variety : string;
  info_process : string;
  info_source : string;
}.

(** What a JavaScript computation can throw (or a promise reject with). *)
Inductive exn :=
  | TypeError
  | SyntaxError
  | ZodError (issues : list ZodIssue)
  | Rejection (reason : jsval).

(** How the promise returned by [createCoffeeInfo] settles. *)
Inductive Settled :=
  | fulfilled (response : jsval)
  | rejected (reason : jsval).

(** The world of the action: the calls of [createCoffeeInfo] made so far,
    oldest first. *)
Definition World : Type := list CoffeeInfo.

(** Computations that read and extend the world and may throw. *)
Definition M (A : Type) : Type := World -> World * (exn + A).

Definition ret {A} (a : A) : M A := fun w => (w, inr a).
Definition throw {A} (e : exn) : M A := fun w => (w, inl e).
Definition bind {A B} (m : M A) (k : A -> M B) : M B := fun w =>
  match m w with
  | (w', inr a) => k a w'
  | (w', inl e) => (w', inl e)
  end.

Notation "'let*' x ':=' m 'in' k" := (bind m (fun x => k))
  (at level 10, x pattern, m at level 100, k at level 200).

(** [schema.parse(data)]: the data when valid, otherwise a thrown
    [ZodError] carrying the issues. *)
Definition parse {A} (r : ParseReturn A) : M A :=
  match safeParse r with
  | success a => ret a
  | failure iss => throw (ZodError iss)
  end.

(** [v.k] and [v[k]]: reading a property of null or undefined throws. *)
Definition member (v : jsval) (k : string) : M jsval :=
  if nullish v then throw TypeError else ret (get v k).

(** [k in v]: throws unless [v] is an object. *)
Definition in_ (k : string) (v : jsval) : M bool :=
  if is_object v then ret (has v k) else throw TypeError.

(** The incoming request: [json] is the parsed body, [None] when the body
    is not JSON. *)
Record Request := mkRequest { json : option jsval }.

Definition request_json (request : Request) : M jsval :=
  match json request with
  | Some body => ret body
  | None => throw SyntaxError
  end.

(** [redirect(url)] of the framework: a 302 response to [url].  The
    framework puts [url] in the [Location] header and refuses a text that
    is no header value (a line break, a character above U+00FF); the
    record is the response for a [url] that is one, and the properties
    that say which redirect the action returns are stated for paths of
    printable ASCII characters. *)
Record Response := mkResponse { status : nat; location : string }.

Definition redirect (url : string) : Response := mkResponse 302 url.

Section Action.

(** The string value of each member of [CoffeeInfoField]; the members have
    pairwise distinct values, so an object keyed by them is a value per
    member. *)
Variable field_value : CoffeeInfoField -> string.

(** The behaviour of [createCoffeeInfo] of [../.server/notion/service],
    given the calls made before. *)
Variable notion : World -> CoffeeInfo -> Settled.

Definition CoffeeInfoDTO (data : CoffeeInfoField -> jsval)
  : ParseReturn CoffeeInfo :=
  pure mkCoffeeInfo
    <*> prop (field_value NAME_KR) z_string (data NAME_KR)
    <*> prop (field_value NAME_EN) z_string (data NAME_EN)
    <*> prop (field_value NOTE) z_string (data NOTE)
    <*> prop (field_value REGION) z_string (data REGION)
    <*> prop (field_value FARM) z_string (data FARM)
    <*> prop (field_value VARIETY) z_string (data VARIETY)
    <*> prop (field_value PROCESS) z_string (data PROCESS)
    <*> prop (field_value SOURCE) z_string (data SOURCE).

(** The object literal handed to [CoffeeInfoDTO.parse], built from the
    destructured [body]. *)
Definition dto_literal (body : jsval) : CoffeeInfoField -> jsval := fun f =>
  match f with
  | NAME_KR => get body "name_kr"
  | NAME_EN => get body "name_en"
  | NOTE => get body "note"
  | REGION => get body "region"
  | FARM => get body "farm"
  | VARIETY => get body "variety"
  | PROCESS => get body "process"
  | SOURCE => get body "source"
  | ID | USER_SUBMITTED => JUndefined
  end.

(** [await createCoffeeInfo(coffeeInfo)]: the call is recorded; a rejected
    promise throws its reason at the [await]. *)
Definition createCoffeeInfo (coffeeInfo : CoffeeInfo) : M jsval := fun w =>
  (w ++ [coffeeInfo],
   match notion w coffeeInfo with
   | fulfilled response => inr response
   | rejected reason => inl (Rejection reason)
   end).

(** [response.properties[CoffeeInfoField.ID]?.unique_id.number]: the
    optional chain ends the whole expression with [undefined] when the
    [ID] entry is null or undefined, and only then. *)
Definition response_number (response : jsval) : M jsval :=
  let* properties := member response "properties" in
  let* entry := member properties (field_value ID) in
  if nullish entry then ret JUndefined
  else
    let* unique_id := member entry "unique_id" in
    member unique_id "number".

Definition action (request : Request) : M Response :=
  let* body := request_json request in
  (* destructuring null or undefined throws *)
  let* _ := (if nullish body then throw TypeError else ret tt) in
  let* coffeeInfo := parse (CoffeeInfoDTO (dto_literal body)) in
  let* response := createCoffeeInfo coffeeInfo in
  let* number :=
    (if truthy response then
       let* has_properties := in_ "properties" response in
       if (has_properties : bool) then response_number response
       else ret (JNum 0)
     else ret (JNum 0)) in
  ret (redirect ("/coffee/" +:+ to_string (or_else number (JNum 0)))).

End Action.

(* ===================================================================== *)
(** ** coffee.suggestion.tsx: the page *)
(* ===================================================================== *)

(** [defaultValues] of the form: every field the empty string. *)
Definition defaultValues : jsval :=
  JObj (list_to_map
          [("name_en", JStr ""); ("name_kr", JStr ""); ("region", JStr "");
           ("farm", JStr ""); ("variety", JStr ""); ("process", JStr "");
           ("note", JStr ""); ("source", JStr "")]).

(** Typing into the input of a field: [field.onChange] stores the text of
    the input under the name of the field. *)
Definition type_into (form : jsval) (edit : string * string) : jsval :=
  match form with
  | JObj m => JObj (<[edit.1 := JStr edit.2]> m)
  | _ => form
  end.

(** The values of the form after a sequence of edits, starting from
    [defaultValues]. *)
Definition form_after (edits : list (string * string)) : jsval :=
  fold_left type_into edits defaultValues.

(** A property that [JSON.stringify] writes only when it is defined. *)
Definition set_defined (key : string) (o : option string)
    (m : gmap string jsval) : gmap string jsval :=
  match o with
  | Some s => <[key := JStr s]> m
  | None => m
  end.

(** The body [fetcher.submit(currentValues, { encType: "application/json" })]
    posts, as [request.json()] reads it. *)
Definition json_of_values (values : FormValues) : jsval :=
  JObj (<["name_kr" := JStr (name_kr values)]>
        (<["name_en" := JStr (name_en values)]>
         (<["note" := JStr (note values)]>
          (set_defined "region" (region values)
           (set_defined "farm" (farm values)
            (set_defined "variety" (variety values)
             (set_defined "process" (process values)
              (set_defined "source" (source values) ∅)))))))).

(** The state of the page: the two [useState] cells, and the bodies the
    fetcher has posted so far, oldest first. *)
Record Page := mkPage {
  alertDialogOpen : bool;
  currentValues : option FormValues;
  posted : list jsval;
}.

Definition initial_page : Page := mkPage false None [].

(** [onSubmit(values)]. *)
Definition onSubmit (values : FormValues) (page : Page) : Page :=
  mkPage true (Some values) (posted page).

(** [form.handleSubmit(onSubmit)] on the values of the form: [onSubmit]
    runs with the parsed values when the resolver accepts them. *)
Definition handleSubmit (input : jsval) (page : Page) : Page :=
  match resolve input with
  | success values => onSubmit values page
  | failure _ => page
  end.

(** [onOpenChange={setAlertDialogOpen}]. *)
Definition onOpenChange (open : bool) (page : Page) : Page :=
  mkPage open (currentValues page) (posted page).

(** [onClick] of the confirming button of the dialog. *)
Definition onClick (page : Page) : Page :=
  match currentValues page with
  | None => page
  | Some values =>
      mkPage (alertDialogOpen page) (currentValues page)
        (posted page ++ [json_of_values values])
  end.

(** What happens on the page. *)
Inductive PageEvent :=
  | SubmitForm (input : jsval)
  | OpenChange (open : bool)
  | Confirm.

Definition page_step (page : Page) (e : PageEvent) : Page :=
  match e with
  | SubmitForm input => handleSubmit input page
  | OpenChange open => onOpenChange open page
  | Confirm => onClick page
  end.

Definition page_run (events : list PageEvent) : Page :=
  fold_left page_step events initial_page.

(* ===================================================================== *)
(** ** contentlayer.config.ts: the rehype visitors around the highlighter *)
(* ===================================================================== *)

(** A node of the HTML syntax tree, with the fields the visitors read and
    write.  A field that is absent on the JavaScript object is [None]
    (or [JUndefined] for the four annotations the first visitor adds).
    [data_meta] is [node.data?.meta]. *)
Inductive node : Type := mkNode {
  type : string;
  tagName : option string;
  properties : option (gmap string jsval);
  children : option (list node);
  value : option string;
  data_meta : option string;
  __event__ : jsval;
  __rawString__ : jsval;
  __src__ : jsval;
  __style__ : jsval;
}.

Definition set_children (n : node) (cs : list node) : node :=
  mkNode (type n) (tagName n) (properties n) (Some cs) (value n)
    (data_meta n) (__event__ n) (__rawString__ n) (__src__ n) (__style__ n).

Definition set_properties (n : node) (ps : gmap string jsval) : node :=
  mkNode (type n) (tagName n) (Some ps) (children n) (value n)
    (data_meta n) (__event__ n) (__rawString__ n) (__src__ n) (__style__ n).

Definition set_data_meta (n : node) (meta : string) : node :=
  mkNode (type n) (tagName n) (properties n) (children n) (value n)
    (Some meta) (__event__ n) (__rawString__ n) (__src__ n) (__style__ n).

Definition set_event (n : node) (v : jsval) : node :=
  mkNode (type n) (tagName n) (properties n) (children n) (value n)
    (data_meta n) v (__rawString__ n) (__src__ n) (__style__ n).

Definition set_rawString (n : node) (v : jsval) : node :=
  mkNode (type n) (tagName n) (properties n) (children n) (value n)
    (data_meta n) (__event__ n) v (__src__ n) (__style__ n).

Definition set_src (n : node) (v : jsval) : node :=
  mkNode (type n) (tagName n) (properties n) (children n) (value n)
    (data_meta n) (__event__ n) (__rawString__ n) v (__style__ n).

Definition set_style (n : node) (v : jsval) : node :=
  mkNode (type n) (tagName n) (properties n) (children n) (value n)
    (data_meta n) (__event__ n) (__rawString__ n) (__src__ n) v.

Definition is_element (tag : string) (n : node) : bool :=
  String.eqb (type n) "element" && bool_decide (tagName n = Some tag).

Definition has_tag (tag : string) (n : node) : bool :=
  bool_decide (tagName n = Some tag).

(** A string read off a node, [undefined] when absent. *)
Definition of_option (o : option string) : jsval :=
  match o with
  | Some s => JStr s
  | None => JUndefined
  end.

(** [node.properties?.[k]]. *)
Definition property (n : node) (k : string) : jsval :=
  match properties n with
  | Some ps => default JUndefined (ps !! k)
  | None => JUndefined
  end.

(** *** The regular expression of the first visitor *)

Definition dquote : ascii := ascii_of_nat 34.
Arguments dquote : simpl never.

(** The literal head of the pattern: [event=] and the opening quote. *)
Definition event_head : string := "event=" +:+ String dquote EmptyString.

(** [s] without the prefix [p], when it starts with it. *)
Fixpoint strip_prefix (p s : string) : option string :=
  match p, s with
  | EmptyString, _ => Some s
  | String a p', String b s' =>
      if Ascii.eqb a b then strip_prefix p' s' else None
  | String _ _, EmptyString => None
  end.

(** The group: the characters up to the next quote, which has to follow;
    returns the group and what comes after the closing quote. *)
Fixpoint quoted_tail (s : string) : option (string * string) :=
  match s with
  | EmptyString => None
  | String c s' =>
      if Ascii.eqb c dquote then Some (EmptyString, s')
      else match quoted_tail s' with
           | Some (group, rest) => Some (String c group, rest)
           | None => None
           end
  end.

Definition event_here (s : string) : option (string * string) :=
  match strip_prefix event_head s with
  | Some tail => quoted_tail tail
  | None => None
  end.

(** The leftmost match of the pattern in [s]: the text before the match,
    the group, and the text after the match. *)
Fixpoint match_event (s : string) : option (string * string * string) :=
  match event_here s with
  | Some (group, rest) => Some (EmptyString, group, rest)
  | None =>
      match s with
      | EmptyString => None
      | String c s' =>
          match match_event s' with
          | Some (before, group, rest) => Some (String c before, group, rest)
          | None => None
          end
      end
  end.

(** *** The visitor before the highlighter *)

(** The meta step on the code element: with a non-empty meta that the
    pattern matches, the group is the event and the match is cut out of the
    meta. *)
Definition extract_event (codeEl : node) : option (string * node) :=
  match data_meta codeEl with
  | Some meta =>
      if String.eqb meta "" then None
      else match match_event meta with
           | Some (before, group, rest) =>
               Some (group, set_data_meta codeEl (before +:+ rest))
           | None => None
           end
  | None => None
  end.

(** [codeEl.children?.[0].value]. *)
Definition first_child_value (codeEl : node) : exn + jsval :=
  match children codeEl with
  | None => inr JUndefined
  | Some [] => inl TypeError
  | Some (t :: _) => inr (of_option (value t))
  end.

Definition pre_highlight_visitor (n : node) : exn + node :=
  if is_element "pre" n then
    match children n with
    | None | Some [] => inl TypeError
    | Some (codeEl :: rest) =>
        if negb (has_tag "code" codeEl) then inr n
        else
          let '(n1, codeEl1) :=
            match extract_event codeEl with
            | Some (event, codeEl') => (set_event n (JStr event), codeEl')
            | None => (n, codeEl)
            end in
          match first_child_value codeEl1 with
          | inl e => inl e
          | inr raw =>
              let n2 := set_rawString (set_children n1 (codeEl1 :: rest)) raw in
              let n3 := set_src n2 (property n2 "__src__") in
              inr (set_style n3 (property n3 "__style__"))
          end
    end
  else inr n.

(** *** The visitor after the highlighter *)

Definition fragment_marker : string := "data-rehype-pretty-code-fragment".

(** The children with the last one replaced. *)
Definition set_last (cs : list node) (p : node) : list node :=
  removelast cs ++ [p].

(** A conditional copy: [if (v) properties[k] = v]. *)
Definition copy_if_truthy (k : string) (v : jsval) (ps : gmap string jsval)
  : gmap string jsval :=
  if truthy v then <[k := v]> ps else ps.

Definition post_highlight_visitor (n : node) : exn + node :=
  if is_element "div" n then
    match properties n with
    | None => inl TypeError
    | Some nps =>
        if negb (bool_decide (is_Some (nps !! fragment_marker))) then inr n
        else
          match children n with
          | None => inl TypeError
          | Some cs =>
              match last cs, head cs with
              | Some preElement, Some firstEl =>
                  if negb (has_tag "pre" preElement) then inr n
                  else
                    match properties preElement with
                    | None => inl TypeError
                    | Some ps =>
                        let ps1 :=
                          <["__withMeta__" := JBool (has_tag "div" firstEl)]> ps in
                        let ps2 := <["__rawString__" := __rawString__ n]> ps1 in
                        let ps3 := copy_if_truthy "__src__" (__src__ n) ps2 in
                        let ps4 := copy_if_truthy "__event__" (__event__ n) ps3 in
                        let ps5 := copy_if_truthy "__style__" (__style__ n) ps4 in
                        inr (set_children n
                               (set_last cs (set_properties preElement ps5)))
                    end
              | _, _ => inl TypeError
              end
          end
    end
  else inr n.

(** *** The line callback of the highlighter *)

(** [onVisitLine(node)]: a line without children gets one text child
    holding a space. *)
Definition onVisitLine (n : node) : exn + node :=
  match children n with
  | None => inl TypeError
  | Some [] =>
      inr (set_children n
             [mkNode "text" None None None (Some " ") None
                JUndefined JUndefined JUndefined JUndefined])
  | Some (_ :: _) => inr n
  end.

(** *** [visit(tree, visitor)] *)

(** The children visited from left to right; the first exception ends the
    traversal. *)
Fixpoint visit_all (go : node -> option (exn + node)) (cs : list node)
  : option (exn + list node) :=
  match cs with
  | [] => Some (inr [])
  | c :: rest =>
      match go c with
      | None => None
      | Some (inl e) => Some (inl e)
      | Some (inr c') =>
          match visit_all go rest with
          | None => None
          | Some (inl e) => Some (inl e)
          | Some (inr rest') => Some (inr (c' :: rest'))
          end
      end
  end.

(** The traversal in preorder: the visitor runs on a node, then the
    children the node has afterwards are traversed.  Neither visitor
    returns a value, so nothing is skipped.  [None] stands for running out
    of [fuel]. *)
Fixpoint visit (fuel : nat) (visitor : node -> exn + node) (n : node)
  : option (exn + node) :=
  match fuel with
  | O => None
  | S fuel' =>
      match visitor n with
      | inl e => Some (inl e)
      | inr n' =>
          match children n' with
          | None => Some (inr n')
          | Some cs =>
              match visit_all (visit fuel' visitor) cs with
              | None => None
              | Some (inl e) => Some (inl e)
              | Some (inr cs') => Some (inr (set_children n' cs'))
              end
          end
      end
  end.

(** The number of levels of a tree. *)
Fixpoint height (n : node) : nat :=
  match n with
  | mkNode _ _ _ cs _ _ _ _ _ _ =>
      match cs with
      | None => 1
      | Some l => S (fold_right (fun c acc => Nat.max (height c) acc) 0 l)
      end
  end.

(** The two plugins: one traversal of the tree each. *)
Definition pre_highlight (tree : node) : option (exn + node) :=
  visit (height tree) pre_highlight_visitor tree.

Definition post_highlight (tree : node) : option (exn + node) :=
  visit (height tree) post_highlight_visitor tree.

(* ===================================================================== *)
(** ** contentlayer.config.ts: the document types *)
(* ===================================================================== *)

Record DocumentType := mkDocumentType {
  name : string;
  filePathPattern : string;
  contentType : string;
}.

Definition Doc : DocumentType :=
  mkDocumentType "Doc" "docs/components/**/*.mdx" "mdx".

Definition Project : DocumentType :=
  mkDocumentType "Project" "docs/projects/**/*.mdx" "mdx".

(** [documentTypes: [Doc, Project]]. *)
Definition documentTypes : list DocumentType := [Doc; Project].

(** *** Matching a file path against a [filePathPattern]

    The patterns are globs over the path relative to the content
    directory.  The forms in use are a literal directory name, [**] for any
    number of directories and [*] followed by literal text for one file
    name; a name starting with a dot is matched only by a literal.  The
    library matches with a regular expression: [**] passes over the
    directories character by character with [.], which matches no line
    terminator, and [*] at the start of a name needs one such character
    ahead and then takes any character but the slash.  A character of a
    string here is a code unit below 256; the line terminators among them
    are line feed and carriage return. *)

Inductive glob_segment :=
  | Literal (s : string)
  | Wildcard (suffix : string)
  | Globstar.

Definition slash : ascii := "/"%char.

Definition glob_segment_of (s : string) : glob_segment :=
  if String.eqb s "**" then Globstar
  else match s with
       | String c rest =>
           if Ascii.eqb c "*"%char then Wildcard rest else Literal s
       | EmptyString => Literal s
       end.

Definition parse_glob (pattern : string) : list glob_segment :=
  glob_segment_of <$> split slash pattern.

Definition hidden (segment : string) : bool :=
  match segment with
  | String c _ => Ascii.eqb c "."%char
  | EmptyString => false
  end.

Fixpoint ends_with (suffix s : string) : bool :=
  String.eqb suffix s ||
  match s with
  | String _ s' => ends_with suffix s'
  | EmptyString => false
  end.

Definition line_terminator (c : ascii) : bool :=
  Ascii.eqb c "010"%char || Ascii.eqb c "013"%char.

Fixpoint has_line_terminator (s : string) : bool :=
  match s with
  | String c s' => line_terminator c || has_line_terminator s'
  | EmptyString => false
  end.

(** [*suffix] against one path segment. *)
Definition wildcard_match (suffix segment : string) : bool :=
  negb (hidden segment) &&
  match segment with
  | String c _ => negb (line_terminator c)
  | EmptyString => false
  end &&
  ends_with suffix segment.

(** A directory that [**] passes over. *)
Definition passed_over (segment : string) : bool :=
  negb (hidden segment) && negb (has_line_terminator segment).

Fixpoint glob_match (pat : list glob_segment) (path : list string) : bool :=
  match pat with
  | [] => match path with [] => true | _ :: _ => false end
  | Literal s :: pat' =>
      match path with
      | segment :: path' => String.eqb s segment && glob_match pat' path'
      | [] => false
      end
  | Wildcard suffix :: pat' =>
      match path with
      | segment :: path' =>
          wildcard_match suffix segment && glob_match pat' path'
      | [] => false
      end
  | Globstar :: pat' =>
      (fix skip (path : list string) : bool :=
         glob_match pat' path ||
         match path with
         | segment :: path' => passed_over segment && skip path'
         | [] => false
         end) path
  end.

Definition matches (pattern path : string) : bool :=
  glob_match (parse_glob pattern) (split slash path).

(** The document type of a content file: the first type of
    [documentTypes] whose pattern matches the relative path. *)
Definition document_type_of (path : string) : option DocumentType :=
  find (fun t => matches (filePathPattern t) path) documentTypes.

(** *** The computed fields

    Both are computed from [doc._raw.flattenedPath], the path of the
    content file without its extension. *)

(** [slug]: the flattened path under the root. *)
Definition slug (flattenedPath : string) : string := "/" +:+ flattenedPath.

(** [slugAsParams]: [flattenedPath.split("/").slice(2).join("/")]. *)
Definition slugAsParams (flattenedPath : string) : string :=
  join "/" (drop 2 (split slash flattenedPath)).

(* ===================================================================== *)
(** ** Auxiliary notions and sample data for the properties *)
(* ===================================================================== *)

Definition empty_name_form : jsval :=
  JObj (list_to_map
          [("name_kr", JStr ""); ("name_en", JStr "Ethiopia Yirgacheffe");
           ("note", JStr "Bright, Floral, Sweet"); ("region", JStr "");
           ("farm", JStr ""); ("variety", JStr ""); ("process", JStr "");
           ("source", JStr "")]).

Definition single_note_form : jsval :=
  JObj (list_to_map
          [("name_kr", JStr "Yirgacheffe"); ("name_en", JStr "");
           ("note", JStr "Floral"); ("region", JStr "");
           ("farm", JStr ""); ("variety", JStr ""); ("process", JStr "");
           ("source", JStr "")]).

(** A remaining field of the form that is a string or is absent. *)
Definition string_or_absent (v : jsval) : Prop := exists o, v = of_option o.

(** The parsed value of an optional field. *)
Definition optional_value (v : jsval) : option string :=
  match v with
  | JStr s => Some s
  | _ => None
  end.

Definition absent_name_en_form : jsval :=
  JObj (list_to_map
          [("name_kr", JStr "Yirgacheffe"); ("note", JStr "Floral,Sweet")]).

Definition sparse_form : jsval :=
  JObj (list_to_map
          [("name_kr", JStr "Yirgacheffe"); ("name_en", JStr "");
           ("note", JStr "Floral,Sweet"); ("region", JStr "");
           ("farm", JStr "Kochere")]).

(** The fields the form schema marks optional. *)
Definition optional_fields : list CoffeeInfoField :=
  [REGION; FARM; VARIETY; PROCESS; SOURCE].

(** An assignment of values to the members of [CoffeeInfoField]. *)
Definition sample_field_value (f : CoffeeInfoField) : string :=
  match f with
  | ID => "ID"
  | USER_SUBMITTED => "User Submitted"
  | NAME_KR => "Name (KR)"
  | NAME_EN => "Name (EN)"
  | NOTE => "Note"
  | REGION => "Region"
  | FARM => "Farm"
  | VARIETY => "Variety"
  | PROCESS => "Process"
  | SOURCE => "Source"
  end.

(** A body as the form page submits it: every field a string. *)
Definition full_body : jsval :=
  JObj (list_to_map
          [("name_kr", JStr "Yirgacheffe"); ("name_en", JStr "Yirgacheffe");
           ("note", JStr "Floral,Sweet"); ("region", JStr "Ethiopia");
           ("farm", JStr "Kochere"); ("variety", JStr "Heirloom");
           ("process", JStr "Washed"); ("source", JStr "")]).

Definition full_info : CoffeeInfo :=
  mkCoffeeInfo "Yirgacheffe" "Yirgacheffe" "Floral,Sweet" "Ethiopia"
    "Kochere" "Heirloom" "Washed" "".

(** A body whose [name_kr] is a number. *)
Definition ill_typed_body : jsval :=
  JObj (list_to_map
          [("name_kr", JNum 7); ("name_en", JStr "Yirgacheffe");
           ("note", JStr "Floral,Sweet"); ("region", JStr "Ethiopia");
           ("farm", JStr "Kochere"); ("variety", JStr "Heirloom");
           ("process", JStr "Washed"); ("source", JStr "")]).

(** Replies of the service. *)
Definition always (reply : Settled) : World -> CoffeeInfo -> Settled :=
  fun _ _ => reply.

(** A response whose [ID] entry is a property of another type. *)
Definition response_without_unique_id : jsval :=
  JObj {[ "properties" :=
            JObj {[ "ID" := JObj {[ "type" := JStr "number" ]} ]} ]}.

(** A response whose [ID] entry carries the number 42. *)
Definition response_with_unique_id : jsval :=
  JObj {[ "properties" :=
            JObj {[ "ID" :=
                      JObj {[ "unique_id" :=
                                JObj {[ "number" := JNum 42 ]} ]} ]} ]}.

(** The nodes of a tree, in the order of the traversal. *)
Fixpoint subnodes (n : node) : list node :=
  n :: match n with
       | mkNode _ _ _ cs _ _ _ _ _ _ =>
           match cs with
           | Some l => flat_map subnodes l
           | None => []
           end
       end.

(** What neither visitor changes on the node it is called on. *)
Definition shell (n : node)
  : string * option string * option (gmap string jsval) * option string :=
  (type n, tagName n, properties n, value n).

(** The four annotations of a node. *)
Definition annotations (n : node) : jsval * jsval * jsval * jsval :=
  (__event__ n, __rawString__ n, __src__ n, __style__ n).

(** A [div] that the highlighter marked as a code fragment. *)
Definition marked (n : node) : bool :=
  is_element "div" n &&
  match properties n with
  | Some ps => bool_decide (is_Some (ps !! fragment_marker))
  | None => false
  end.







(** Sample nodes. *)
Definition text (s : string) : node :=
  mkNode "text" None None None (Some s) None
    JUndefined JUndefined JUndefined JUndefined.

Definition element (tag : string) (ps : gmap string jsval)
    (meta : option string) (cs : list node) : node :=
  mkNode "element" (Some tag) (Some ps) (Some cs) None meta
    JUndefined JUndefined JUndefined JUndefined.




(** A code block with an event and a source. *)
Definition click_meta : string :=
  "showLineNumbers " +:+ event_head +:+ "copy_npm"
    +:+ String dquote EmptyString.

Definition click_block : node :=
  element "pre" {[ "__src__" := JStr "ui/button.tsx" ]} None
    [element "code" ∅ (Some click_meta) [text "npm install"]].

Definition click_fragment : node :=
  mkNode "element" (Some "div") (Some {[ fragment_marker := JStr "" ]})
    (Some [element "pre" ∅ None [element "code" ∅ None [text "npm install"]]])
    None None (JStr "copy_npm") (JStr "npm install") (JStr "ui/button.tsx")
    JUndefined.

(** The height of the highest of a list of trees. *)
Definition max_height (cs : list node) : nat :=
  fold_right (fun c acc => Nat.max (height c) acc) 0 cs.

(** The properties the second visitor leaves on the [pre] element. *)
Definition final_properties (n firstEl : node) (ps : gmap string jsval)
  : gmap string jsval :=
  copy_if_truthy "__style__" (__style__ n)
    (copy_if_truthy "__event__" (__event__ n)
       (copy_if_truthy "__src__" (__src__ n)
          (<["__rawString__" := __rawString__ n]>
             (<["__withMeta__" := JBool (has_tag "div" firstEl)]> ps)))).

(** The keys of the shape of [formSchema], in its order. *)
Definition form_keys : list string :=
  ["name_kr"; "name_en"; "note"; "region"; "farm"; "variety"; "process";
   "source"].

(** The issues [note_schema] raises on a string. *)
Definition note_issues (s : string) : list ZodIssue :=
  (if String.eqb s "" then [mkIssue too_small [] note_required] else [])
  ++ (if includes comma s then []
      else [mkIssue custom [] note_comma_separated]).

(** The record the action hands to [createCoffeeInfo] for values of the
    form in which every field is present. *)
Definition info_of_values (values : FormValues) : option CoffeeInfo :=
  r ← region values; f ← farm values; v ← variety values;
  p ← process values; s ← source values;
  Some (mkCoffeeInfo (name_kr values) (name_en values) (note values) r f v p s).

(** Values that satisfy the two rules of the form schema. *)
Definition valid_values (values : FormValues) : Prop :=
  name_kr values <> "" /\ includes comma (note values) = true.

(** What every state of the page satisfies: the values kept for the dialog
    are valid, and every posted body is the body of valid values. *)
Definition page_invariant (page : Page) : Prop :=
  (forall values, currentValues page = Some values -> valid_values values) /\
  (forall body,
     body ∈ posted page ->
     exists values, valid_values values /\ body = json_of_values values).

(** Sample runs of the page. *)
Definition confirmed_run : list PageEvent :=
  [SubmitForm empty_name_form; Confirm; SubmitForm sparse_form;
   OpenChange false; Confirm].

Definition refused_run : list PageEvent :=
  [SubmitForm empty_name_form; Confirm; SubmitForm single_note_form; Confirm].

(** The integer numbers of JavaScript that are exact: the safe integers.
    ToString prints them with all their digits. *)
Definition safe_integer (z : Z) : Prop :=
  (- 2 ^ 53 < z < 2 ^ 53)%Z.

(** The decimal digits of an integer, with its sign. *)
Definition digits (z : Z) : string := NilZero.string_of_int (Z.to_int z).

(** The number of a record as far as it is a safe integer; an absent or
    null number counts as 0. *)
Definition record_number (number : jsval) : option Z :=
  match number with
  | JUndefined | JNull => Some 0%Z
  | JNum z =>
      if ((- 2 ^ 53 <? z) && (z <? 2 ^ 53))%Z then Some z else None
  | _ => None
  end.

(** A character of a plain name: a letter, a digit, [-] or [_]. *)
Definition plain_char (c : ascii) : bool :=
  let n := nat_of_ascii c in
  (Nat.leb 48 n && Nat.leb n 57) || (Nat.leb 65 n && Nat.leb n 90) ||
  (Nat.leb 97 n && Nat.leb n 122) || Nat.eqb n 45 || Nat.eqb n 95.

Fixpoint every_char (p : ascii -> bool) (s : string) : bool :=
  match s with
  | String c s' => p c && every_char p s'
  | EmptyString => true
  end.

(** A plain name: one plain character or more. *)
Definition plain_name (s : string) : bool :=
  negb (String.eqb s "") && every_char plain_char s.

(** The path of the content file [stem.mdx] in the directories [dirs]
    under [docs/directory]. *)
Definition content_path (directory : string) (dirs : list string)
    (stem : string) : string :=
  join "/" ("docs" :: directory :: dirs ++ [stem +:+ ".mdx"]).

(** The path of the redirect for the number read off the response. *)
Definition coffee_path (number : jsval) : string :=
  "/coffee/" +:+ to_string (or_else number (JNum 0)).

(** What the action does after a fulfilled [createCoffeeInfo], as a
    computation on the response. *)
Definition after_create (field_value : CoffeeInfoField -> string)
    (response : jsval) : M Response :=
  let* number :=
    (if truthy response then
       let* has_properties := in_ "properties" response in
       if (has_properties : bool)
       then response_number field_value response
       else ret (JNum 0)
     else ret (JNum 0)) in
  ret (redirect ("/coffee/" +:+ to_string (or_else number (JNum 0)))).

(** A response whose [ID] entry carries a [unique_id] without a number. *)
Definition response_without_number : jsval :=
  JObj {[ "properties" :=
            JObj {[ "ID" := JObj {[ "unique_id" := JObj ∅ ]} ]} ]}.

(** A tree of labels: the shape of a tree of nodes with a label for each
    node. *)
Inductive outline_tree (L : Type) : Type :=
  | Outline (label : L) (cs : option (list (outline_tree L))).
Arguments Outline {L} label cs.

Fixpoint outline {L : Type} (label : node -> L) (n : node) : outline_tree L :=
  Outline (label n)
    match n with
    | mkNode _ _ _ cs _ _ _ _ _ _ =>
        match cs with
        | Some l => Some (map (outline label) l)
        | None => None
        end
    end.

(** What the second visitor changes nowhere: everything but the
    properties. *)
Definition content (n : node)
  : string * option string * option string * option string
    * (jsval * jsval * jsval * jsval) :=
  (type n, tagName n, value n, data_meta n, annotations n).

(** Whether the first visitor throws on a node. *)
Definition pre_highlight_throws (n : node) : bool :=
  match pre_highlight_visitor n with
  | inl _ => true
  | inr _ => false
  end.

(** A tree with a code element that has an empty list of children. *)
Definition empty_code_tree : node :=
  mkNode "root" None None
    (Some [element "p" ∅ None [text "Install"];
           element "pre" ∅ None [element "code" ∅ None []]])
    None None JUndefined JUndefined JUndefined JUndefined.

(** A tree without code blocks. *)
Definition prose_tree : node :=
  mkNode "root" None None
    (Some [element "h2" ∅ None [text "Usage"];
           element "p" ∅ None [text "Install"; element "em" ∅ None []]])
    None None JUndefined JUndefined JUndefined JUndefined.

(** A [pre] element the first visitor cannot read: one without a first
    child, or one around a [code] element whose list of children is
    empty. *)
Definition malformed_block (m : node) : bool :=
  is_element "pre" m &&
  match children m with
  | None | Some [] => true
  | Some (codeEl :: _) =>
      has_tag "code" codeEl &&
      match children codeEl with
      | Some [] => true
      | _ => false
      end
  end.

(** Edits that fill in a name and a note. *)
Definition sample_edits : list (string * string) :=
  [("name_kr", "Yirgacheffe"); ("note", "Floral"); ("note", "Floral,Sweet")].

(* ===================================================================== *)
(** * Properties *)
(* ===================================================================== *)

(** ** Strings *)

Lemma split_length (sep : ascii) (s : string) :
  length (split sep s) = S (occurrences sep s).
Proof.
  induction s as [|c s IH]; simpl; [reflexivity|].
  destruct (Ascii.eqb c sep); simpl.
  - now rewrite IH.
  - destruct (split sep s) as [|t ts]; simpl in *; lia.
Qed.

Lemma note_refinement_includes (s : string) :
  note_refinement s = includes comma s.
Proof.
  unfold note_refinement, includes. rewrite split_length.
  destruct (occurrences comma s); reflexivity.
Qed.

Lemma includes_nonempty (c : ascii) (s : string) :
  includes c s = true -> s <> EmptyString.
Proof. now destruct s. Qed.

(** ** The zod combinators *)

Lemma safeParse_issues {A} (r : ParseReturn A) :
  r.1 <> [] -> safeParse r = failure r.1.
Proof. destruct r as [[|i iss] [a|]]; simpl; congruence. Qed.

Lemma safeParse_success {A} (r : ParseReturn A) (a : A) :
  safeParse r = success a <-> r = ([], Some a).
Proof.
  destruct r as [[|i iss] [b|]]; simpl; split; intros H;
    inversion H; subst; reflexivity.
Qed.

Lemma z_string_str (s : string) : z_string (JStr s) = ([], Some s).
Proof. reflexivity. Qed.

Lemma z_string_not_string (v : jsval) :
  (forall s, v <> JStr s) ->
  z_string v = ([invalid_type_issue "string" v], None).
Proof. destruct v; intros H; try reflexivity. now destruct (H s). Qed.

Lemma optional_string (v : jsval) (o : option string) :
  v = of_option o -> optional z_string v = ([], Some o).
Proof. intros ->. now destruct o. Qed.

Lemma get_object (v : jsval) (k : string) :
  get v k <> JUndefined -> is_object v = true.
Proof. destruct v; simpl; congruence. Qed.

(** ** The form schema *)

Lemma name_kr_schema_empty :
  name_kr_schema (JStr "") = ([mkIssue too_small [] name_kr_required], Some "").
Proof. reflexivity. Qed.

Lemma name_kr_schema_nonempty (s : string) :
  s <> "" -> name_kr_schema (JStr s) = ([], Some s).
Proof. destruct s; [congruence | reflexivity]. Qed.

Lemma note_schema_no_comma (s : string) :
  includes comma s = false ->
  exists iss, note_schema (JStr s)
              = (iss ++ [mkIssue custom [] note_comma_separated], Some s).
Proof.
  intros H. unfold note_schema, refine.
  destruct (min 1 note_required z_string (JStr s)) as [iss o] eqn:E.
  unfold min in E. simpl in E.
  destruct (String.length s <? 1)%nat; inversion E; subst;
    rewrite note_refinement_includes, H; eauto.
Qed.

Lemma note_schema_comma (s : string) :
  includes comma s = true -> note_schema (JStr s) = ([], Some s).
Proof.
  intros H. unfold note_schema, refine, min. simpl.
  destruct s as [|c s]; [discriminate|]. simpl.
  now rewrite note_refinement_includes, H.
Qed.

(** The issues of the form schema on an object, key by key. *)
Lemma formSchema_issues (input : jsval) :
  is_object input = true ->
  (formSchema input).1 =
    (prop "name_kr" name_kr_schema (get input "name_kr")).1
    ++ (prop "name_en" z_string (get input "name_en")).1
    ++ (prop "note" note_schema (get input "note")).1
    ++ (prop "region" (optional z_string) (get input "region")).1
    ++ (prop "farm" (optional z_string) (get input "farm")).1
    ++ (prop "variety" (optional z_string) (get input "variety")).1
    ++ (prop "process" (optional z_string) (get input "process")).1
    ++ (prop "source" (optional z_string) (get input "source")).1.
Proof.
  intros Hobj. unfold formSchema, z_object. rewrite Hobj. simpl.
  now rewrite <- !app_assoc.
Qed.

Lemma prop_issues {A} (key : string) (sch : schema A) (v : jsval) :
  (prop key sch v).1 = under key <$> (sch v).1.
Proof. unfold prop. now destruct (sch v). Qed.

Lemma prop_value {A} (key : string) (sch : schema A) (v : jsval) :
  (prop key sch v).2 = (sch v).2.
Proof. unfold prop. now destruct (sch v). Qed.

Lemma prop_valid {A} (key : string) (sch : schema A) (v : jsval) (a : A) :
  sch v = ([], Some a) -> prop key sch v = ([], Some a).
Proof. unfold prop. now intros ->. Qed.

Lemma resolve_issue (input : jsval) (i : ZodIssue) :
  is_object input = true ->
  i ∈ (formSchema input).1 ->
  exists error, resolve input = failure error /\ i ∈ error.
Proof.
  intros Hobj Hin. exists (formSchema input).1. split; [|exact Hin].
  apply safeParse_issues. intros E. rewrite E in Hin.
  now apply not_elem_of_nil in Hin.
Qed.

(** C1: every form input whose [name_kr] is the empty string is rejected by
    the client-side schema, with the issue that the Korean name is
    required reported at [name_kr]. *)
Theorem empty_name_kr_rejected (input : jsval) :
  get input "name_kr" = JStr "" ->
  exists error,
    resolve input = failure error /\
    mkIssue too_small ["name_kr"] name_kr_required ∈ error.
Proof.
  intros H.
  assert (Hobj : is_object input = true)
    by (apply (get_object input "name_kr"); congruence).
  apply resolve_issue; [exact Hobj|].
  rewrite formSchema_issues by exact Hobj.
  rewrite H, prop_issues, name_kr_schema_empty. simpl. left.
Qed.

Lemma empty_name_kr_rejected_witness :
  get empty_name_form "name_kr" = JStr "" /\
  exists error,
    resolve empty_name_form = failure error /\
    mkIssue too_small ["name_kr"] name_kr_required ∈ error.
Proof.
  split; [reflexivity|].
  apply (empty_name_kr_rejected empty_name_form). reflexivity.
Defined.

(** C2: every form input whose [note] is a string without a comma is
    rejected by the client-side schema, with the issue that notes are to be
    separated by commas reported at [note]. *)
Theorem single_token_note_rejected (input : jsval) (s : string) :
  get input "note" = JStr s ->
  includes comma s = false ->
  exists error,
    resolve input = failure error /\
    mkIssue custom ["note"] note_comma_separated ∈ error.
Proof.
  intros H Hs.
  assert (Hobj : is_object input = true)
    by (apply (get_object input "note"); congruence).
  apply resolve_issue; [exact Hobj|].
  rewrite formSchema_issues by exact Hobj.
  destruct (note_schema_no_comma s Hs) as [iss E].
  rewrite H, (prop_issues "note"), E. simpl.
  rewrite !elem_of_app. right. right. left.
  rewrite fmap_app, elem_of_app. right. simpl. left.
Qed.

Lemma single_token_note_rejected_witness :
  get single_note_form "note" = JStr "Floral" /\
  includes comma "Floral" = false /\
  exists error,
    resolve single_note_form = failure error /\
    mkIssue custom ["note"] note_comma_separated ∈ error.
Proof.
  split; [reflexivity|]. split; [reflexivity|].
  apply (single_token_note_rejected single_note_form "Floral"); reflexivity.
Defined.

(** C10: the validation of [note] accepts every string that has a comma in
    it, raising no issue, whatever the pieces between the commas are. *)
Theorem note_with_comma_accepted (s : string) :
  includes comma s = true ->
  safeParse (note_schema (JStr s)) = success s.
Proof. intros H. now rewrite note_schema_comma. Qed.

Lemma note_with_comma_accepted_witness :
  includes comma "," = true /\
  split comma "," = [""; ""] /\
  safeParse (note_schema (JStr ",")) = success ",".
Proof.
  split; [reflexivity|]. split; [reflexivity|].
  apply (note_with_comma_accepted ","). reflexivity.
Defined.

Lemma optional_string_or_absent (v : jsval) :
  string_or_absent v -> optional z_string v = ([], Some (optional_value v)).
Proof. intros [[s|] ->]; reflexivity. Qed.

(** C4, as stated, fails: a form input with a non-empty [name_kr] and a
    [note] of two comma-separated pieces, in which [name_en] is absent, is
    rejected, since [name_en] is a required string. *)
Lemma absent_name_en_rejected :
  get absent_name_en_form "name_kr" = JStr "Yirgacheffe" /\
  "Yirgacheffe" <> "" /\
  get absent_name_en_form "note" = JStr "Floral,Sweet" /\
  1 < length (split comma "Floral,Sweet") /\
  get absent_name_en_form "name_en" = JUndefined /\
  resolve absent_name_en_form
    = failure [mkIssue invalid_type ["name_en"] "Required"] /\
  ~ form_accepts absent_name_en_form.
Proof.
  repeat split; try reflexivity; try discriminate.
  - simpl. lia.
  - intros [values H]. discriminate H.
Qed.

(** C4, amended: a form input passes the client-side schema whenever
    [name_kr] is a non-empty string, [note] is a string that splits on
    commas into more than one piece, [name_en] is a string (possibly empty)
    and each of [region], [farm], [variety], [process] and [source] is a
    string (possibly empty) or absent; the parsed values are the submitted
    ones. *)
Theorem well_formed_input_accepted (input : jsval) (nk ne nt : string) :
  get input "name_kr" = JStr nk -> nk <> "" ->
  get input "note" = JStr nt -> 1 < length (split comma nt) ->
  get input "name_en" = JStr ne ->
  string_or_absent (get input "region") ->
  string_or_absent (get input "farm") ->
  string_or_absent (get input "variety") ->
  string_or_absent (get input "process") ->
  string_or_absent (get input "source") ->
  resolve input =
    success (mkFormValues nk ne nt
               (optional_value (get input "region"))
               (optional_value (get input "farm"))
               (optional_value (get input "variety"))
               (optional_value (get input "process"))
               (optional_value (get input "source"))).
Proof.
  intros Hkr Hnk Hnote Hnt Hen Hr Hf Hv Hp Hs.
  assert (Hobj : is_object input = true)
    by (apply (get_object input "name_kr"); congruence).
  assert (Hc : includes comma nt = true).
  { rewrite <- note_refinement_includes. unfold note_refinement.
    now apply Nat.ltb_lt. }
  apply safeParse_success.
  unfold formSchema, z_object. rewrite Hobj.
  rewrite Hkr, Hnote, Hen.
  rewrite (prop_valid "name_kr" _ _ nk) by now apply name_kr_schema_nonempty.
  rewrite (prop_valid "name_en" _ _ ne) by reflexivity.
  rewrite (prop_valid "note" _ _ nt) by now apply note_schema_comma.
  rewrite (prop_valid "region" _ _ _ (optional_string_or_absent _ Hr)).
  rewrite (prop_valid "farm" _ _ _ (optional_string_or_absent _ Hf)).
  rewrite (prop_valid "variety" _ _ _ (optional_string_or_absent _ Hv)).
  rewrite (prop_valid "process" _ _ _ (optional_string_or_absent _ Hp)).
  rewrite (prop_valid "source" _ _ _ (optional_string_or_absent _ Hs)).
  reflexivity.
Qed.

Lemma well_formed_input_accepted_witness :
  resolve sparse_form =
    success (mkFormValues "Yirgacheffe" "" "Floral,Sweet"
               (Some "") (Some "Kochere") None None None).
Proof.
  apply (well_formed_input_accepted sparse_form "Yirgacheffe" "" "Floral,Sweet");
    try reflexivity; try discriminate.
  - simpl. lia.
  - now exists (Some "").
  - now exists (Some "Kochere").
  - now exists None.
  - now exists None.
  - now exists None.
Defined.

(** ** The server action *)

Section ActionProperties.

Variable field_value : CoffeeInfoField -> string.
Variable notion : World -> CoffeeInfo -> Settled.

Lemma CoffeeInfoDTO_issues (data : CoffeeInfoField -> jsval) :
  (CoffeeInfoDTO field_value data).1 =
    (prop (field_value NAME_KR) z_string (data NAME_KR)).1
    ++ (prop (field_value NAME_EN) z_string (data NAME_EN)).1
    ++ (prop (field_value NOTE) z_string (data NOTE)).1
    ++ (prop (field_value REGION) z_string (data REGION)).1
    ++ (prop (field_value FARM) z_string (data FARM)).1
    ++ (prop (field_value VARIETY) z_string (data VARIETY)).1
    ++ (prop (field_value PROCESS) z_string (data PROCESS)).1
    ++ (prop (field_value SOURCE) z_string (data SOURCE)).1.
Proof. unfold CoffeeInfoDTO. simpl. now rewrite <- !app_assoc. Qed.

Lemma CoffeeInfoDTO_required
    (data : CoffeeInfoField -> jsval) (f : CoffeeInfoField) :
  f ∈ optional_fields ->
  data f = JUndefined ->
  mkIssue invalid_type [field_value f] "Required"
    ∈ (CoffeeInfoDTO field_value data).1.
Proof.
  intros Hf Hd. rewrite CoffeeInfoDTO_issues, !elem_of_app.
  unfold optional_fields in Hf.
  repeat (apply elem_of_cons in Hf as [->|Hf]);
    [..|now apply not_elem_of_nil in Hf];
    rewrite !prop_issues, Hd; simpl.
  - do 3 right. left. left.
  - do 4 right. left. left.
  - do 5 right. left. left.
  - do 6 right. left. left.
  - do 7 right. left.
Qed.

(** The action up to the parse of the body. *)
Lemma action_body (request : Request) (body : jsval) (w : World) :
  json request = Some body ->
  action field_value notion request w =
    if nullish body then (w, inl TypeError)
    else
      match safeParse (CoffeeInfoDTO field_value (dto_literal body)) with
      | failure iss => (w, inl (ZodError iss))
      | success coffeeInfo =>
          match notion w coffeeInfo with
          | rejected reason => (w ++ [coffeeInfo], inl (Rejection reason))
          | fulfilled response =>
              (let* number :=
                 (if truthy response then
                    let* has_properties := in_ "properties" response in
                    if (has_properties : bool)
                    then response_number field_value response
                    else ret (JNum 0)
                  else ret (JNum 0)) in
               ret (redirect ("/coffee/" +:+ to_string (or_else number (JNum 0)))))
                (w ++ [coffeeInfo])
          end
      end.
Proof.
  intros Hjson. unfold action, request_json, bind at 1 2 3.
  rewrite Hjson. unfold ret at 1.
  destruct (nullish body); [reflexivity|]. unfold ret at 1.
  unfold bind at 1, parse.
  destruct (safeParse _) as [coffeeInfo|iss]; [|reflexivity].
  unfold ret at 1. unfold bind at 1, createCoffeeInfo.
  destruct (notion w coffeeInfo); reflexivity.
Qed.

(** C5: when the body of the request fails [CoffeeInfoDTO], the action
    throws the error of the validator (or, for a body that is null, the
    type error of the destructuring before it), returns no redirect, and
    [createCoffeeInfo] is not called: the world is as it was. *)
Theorem invalid_body_throws
    (request : Request) (body : jsval) (iss : list ZodIssue) (w : World) :
  json request = Some body ->
  safeParse (CoffeeInfoDTO field_value (dto_literal body)) = failure iss ->
  action field_value notion request w
    = (w, inl (if nullish body then TypeError else ZodError iss)).
Proof.
  intros Hjson Hparse. rewrite (action_body request body w Hjson), Hparse.
  now destruct (nullish body).
Qed.

(** C9: when one of [region], [farm], [variety], [process], [source] is
    absent from the body of the request, the action throws and
    [createCoffeeInfo] is not called; for a body that can be destructured
    the exception is the [ZodError] of [CoffeeInfoDTO.parse], which
    reports the field as required. *)
Theorem missing_optional_field_throws
    (request : Request) (body : jsval) (f : CoffeeInfoField) (w : World) :
  json request = Some body ->
  f ∈ optional_fields ->
  dto_literal body f = JUndefined ->
  exists e,
    action field_value notion request w = (w, inl e) /\
    (nullish body = false ->
     exists iss, e = ZodError iss /\
                 mkIssue invalid_type [field_value f] "Required" ∈ iss).
Proof.
  intros Hjson Hf Hd.
  pose proof (CoffeeInfoDTO_required (dto_literal body) f Hf Hd) as Hin.
  assert (Hne : (CoffeeInfoDTO field_value (dto_literal body)).1 <> []).
  { intros E. rewrite E in Hin. now apply not_elem_of_nil in Hin. }
  pose proof (safeParse_issues _ Hne) as Hparse.
  rewrite (action_body request body w Hjson), Hparse.
  destruct (nullish body); eauto.
  eexists. split; [reflexivity|]. discriminate.
Qed.

(** C6: when the promise of [createCoffeeInfo] rejects, the action throws
    the reason of the rejection as it is, after exactly one call of
    [createCoffeeInfo], and returns no redirect. *)
Theorem create_rejection_propagates
    (request : Request) (body : jsval) (coffeeInfo : CoffeeInfo)
    (reason : jsval) (w : World) :
  json request = Some body ->
  nullish body = false ->
  safeParse (CoffeeInfoDTO field_value (dto_literal body))
    = success coffeeInfo ->
  notion w coffeeInfo = rejected reason ->
  action field_value notion request w
    = (w ++ [coffeeInfo], inl (Rejection reason)).
Proof.
  intros Hjson Hbody Hparse Hreply.
  now rewrite (action_body request body w Hjson), Hbody, Hparse, Hreply.
Qed.

(** The action after a fulfilled [createCoffeeInfo]. *)
Lemma action_fulfilled
    (request : Request) (body : jsval) (coffeeInfo : CoffeeInfo)
    (response : jsval) (w : World) :
  json request = Some body ->
  nullish body = false ->
  safeParse (CoffeeInfoDTO field_value (dto_literal body))
    = success coffeeInfo ->
  notion w coffeeInfo = fulfilled response ->
  action field_value notion request w =
    (let* number :=
       (if truthy response then
          let* has_properties := in_ "properties" response in
          if (has_properties : bool)
          then response_number field_value response
          else ret (JNum 0)
        else ret (JNum 0)) in
     ret (redirect ("/coffee/" +:+ to_string (or_else number (JNum 0)))))
      (w ++ [coffeeInfo]).
Proof.
  intros Hjson Hbody Hparse Hreply.
  now rewrite (action_body request body w Hjson), Hbody, Hparse, Hreply.
Qed.

(** X16: a response that is falsy, or an object without [properties], or
    one whose [properties] have no [ID] entry: the redirect goes to
    [/coffee/0]. *)
Lemma action_without_identifier
    (request : Request) (body : jsval) (coffeeInfo : CoffeeInfo)
    (response : jsval) (w : World) :
  json request = Some body ->
  nullish body = false ->
  safeParse (CoffeeInfoDTO field_value (dto_literal body))
    = success coffeeInfo ->
  notion w coffeeInfo = fulfilled response ->
  truthy response = false \/
  (is_object response = true /\ has response "properties" = false) \/
  (is_object response = true /\ has response "properties" = true /\
   nullish (get response "properties") = false /\
   nullish (get (get response "properties") (field_value ID)) = true) ->
  action field_value notion request w
    = (w ++ [coffeeInfo], inr (redirect "/coffee/0")).
Proof.
  intros Hjson Hbody Hparse Hreply Hshape.
  rewrite (action_fulfilled request body coffeeInfo response w)
    by assumption.
  destruct Hshape as [Hf|[[Hobj Hno]|(Hobj & Hhas & Hprops & Hentry)]].
  - unfold bind. now rewrite Hf.
  - assert (Ht : truthy response = true) by now destruct response.
    unfold bind, in_. now rewrite Ht, Hobj, Hno.
  - assert (Ht : truthy response = true) by now destruct response.
    assert (Hn : nullish response = false) by now destruct response.
    unfold bind, in_, response_number, bind, member.
    rewrite Ht, Hobj. unfold ret at 1. rewrite Hhas, Hn. unfold ret at 1.
    rewrite Hprops. unfold ret at 1. now rewrite Hentry.
Qed.

(** X17: a response whose [ID] entry carries a [unique_id] whose [number]
    is a safe integer, or is absent or null and then counts as 0: the
    redirect goes to [/coffee/] followed by the digits of the number. *)
Lemma action_with_identifier
    (request : Request) (body : jsval) (coffeeInfo : CoffeeInfo)
    (response unique_id : jsval) (w : World) (n : Z) :
  json request = Some body ->
  nullish body = false ->
  safeParse (CoffeeInfoDTO field_value (dto_literal body))
    = success coffeeInfo ->
  notion w coffeeInfo = fulfilled response ->
  has response "properties" = true ->
  nullish (get response "properties") = false ->
  nullish (get (get response "properties") (field_value ID)) = false ->
  get (get (get response "properties") (field_value ID)) "unique_id"
    = unique_id ->
  nullish unique_id = false ->
  record_number (get unique_id "number") = Some n ->
  action field_value notion request w =
    (w ++ [coffeeInfo], inr (redirect ("/coffee/" +:+ digits n))).
Proof.
  intros Hjson Hbody Hparse Hreply Hhas Hprops Hentry Hu Hun Hnumber.
  rewrite (action_fulfilled request body coffeeInfo response w)
    by assumption.
  assert (Hobj : is_object response = true) by now destruct response.
  assert (Ht : truthy response = true) by now destruct response.
  assert (Hn : nullish response = false) by now destruct response.
  unfold bind, in_, response_number, bind, member.
  rewrite Ht, Hobj. unfold ret at 1. rewrite Hhas, Hn. unfold ret at 1.
  rewrite Hprops. unfold ret at 1. rewrite Hentry. unfold ret at 1.
  rewrite Hu, Hun. unfold ret.
  assert (E : to_string (or_else (get unique_id "number") (JNum 0))
              = digits n).
  { destruct (get unique_id "number") as [| |b|z|t|m];
      try discriminate Hnumber; simpl in Hnumber.
    - now injection Hnumber as <-.
    - now injection Hnumber as <-.
    - destruct ((- 2 ^ 53 <? z) && (z <? 2 ^ 53))%Z; [|discriminate].
      injection Hnumber as <-. unfold or_else. simpl.
      now destruct (Z.eqb_spec z 0) as [->|]. }
  now rewrite E.
Qed.

(** C3: a response whose [ID] entry is present but carries no [unique_id]
    makes the action throw a type error after the record was created: no
    redirect is returned, although the response holds no identifier. *)
Theorem entry_without_unique_id_throws
    (request : Request) (body : jsval) (coffeeInfo : CoffeeInfo)
    (response : jsval) (w : World) :
  json request = Some body ->
  nullish body = false ->
  safeParse (CoffeeInfoDTO field_value (dto_literal body))
    = success coffeeInfo ->
  notion w coffeeInfo = fulfilled response ->
  has response "properties" = true ->
  nullish (get response "properties") = false ->
  nullish (get (get response "properties") (field_value ID)) = false ->
  nullish (get (get (get response "properties") (field_value ID)) "unique_id")
    = true ->
  action field_value notion request w = (w ++ [coffeeInfo], inl TypeError).
Proof.
  intros Hjson Hbody Hparse Hreply Hhas Hprops Hentry Hun.
  rewrite (action_fulfilled request body coffeeInfo response w)
    by assumption.
  assert (Hobj : is_object response = true) by now destruct response.
  assert (Ht : truthy response = true) by now destruct response.
  assert (Hn : nullish response = false) by now destruct response.
  unfold bind, in_, response_number, bind, member.
  rewrite Ht, Hobj. unfold ret at 1. rewrite Hhas, Hn. unfold ret at 1.
  rewrite Hprops. unfold ret at 1. rewrite Hentry. unfold ret at 1.
  now rewrite Hun.
Qed.

End ActionProperties.

(** The sample body passes both schemas. *)
Lemma full_body_parses :
  safeParse (CoffeeInfoDTO sample_field_value (dto_literal full_body))
    = success full_info.
Proof. reflexivity. Qed.

Lemma invalid_body_throws_witness :
  exists iss,
    safeParse (CoffeeInfoDTO sample_field_value (dto_literal ill_typed_body))
      = failure iss /\
    action sample_field_value (always (fulfilled JNull))
      (mkRequest (Some ill_typed_body)) []
      = ([], inl (ZodError iss)).
Proof.
  eexists. split; [reflexivity|].
  apply (invalid_body_throws sample_field_value (always (fulfilled JNull))
           (mkRequest (Some ill_typed_body)) ill_typed_body);
    reflexivity.
Defined.

(** The sparse form passes the client-side schema, and the action refuses
    it for its absent [variety]. *)
Lemma missing_optional_field_throws_witness :
  is_success (resolve sparse_form) = true /\
  exists e,
    action sample_field_value (always (fulfilled JNull))
      (mkRequest (Some sparse_form)) [] = ([], inl e) /\
    (nullish sparse_form = false ->
     exists iss, e = ZodError iss /\
                 mkIssue invalid_type ["Variety"] "Required" ∈ iss).
Proof.
  split; [reflexivity|].
  apply (missing_optional_field_throws sample_field_value
           (always (fulfilled JNull)) (mkRequest (Some sparse_form))
           sparse_form VARIETY []).
  - reflexivity.
  - unfold optional_fields. do 2 right. left.
  - reflexivity.
Defined.

Lemma create_rejection_propagates_witness :
  action sample_field_value (always (rejected (JStr "timeout")))
    (mkRequest (Some full_body)) []
    = ([full_info], inl (Rejection (JStr "timeout"))).
Proof.
  apply (create_rejection_propagates sample_field_value
           (always (rejected (JStr "timeout")))
           (mkRequest (Some full_body)) full_body full_info
           (JStr "timeout") []);
    reflexivity.
Defined.

Lemma entry_without_unique_id_throws_witness :
  action sample_field_value (always (fulfilled response_without_unique_id))
    (mkRequest (Some full_body)) []
    = ([full_info], inl TypeError).
Proof.
  apply (entry_without_unique_id_throws sample_field_value
           (always (fulfilled response_without_unique_id))
           (mkRequest (Some full_body)) full_body full_info
           response_without_unique_id []);
    reflexivity.
Defined.

Example action_redirects_to_identifier :
  action sample_field_value (always (fulfilled response_with_unique_id))
    (mkRequest (Some full_body)) []
    = ([full_info], inr (redirect "/coffee/42")).
Proof. reflexivity. Qed.

Example action_redirects_to_zero :
  action sample_field_value (always (fulfilled JUndefined))
    (mkRequest (Some full_body)) []
    = ([full_info], inr (redirect "/coffee/0")).
Proof. reflexivity. Qed.

(** ** The document types *)

Lemma Doc_glob :
  parse_glob (filePathPattern Doc)
    = [Literal "docs"; Literal "components"; Globstar; Wildcard ".mdx"].
Proof. reflexivity. Qed.

Lemma Project_glob :
  parse_glob (filePathPattern Project)
    = [Literal "docs"; Literal "projects"; Globstar; Wildcard ".mdx"].
Proof. reflexivity. Qed.

(** A path matched by a pattern that starts with two literal directories
    starts with these directories. *)
Lemma glob_match_two_literals (a b : string) (pat : list glob_segment)
    (path : list string) :
  glob_match (Literal a :: Literal b :: pat) path = true ->
  exists rest, path = a :: b :: rest /\ glob_match pat rest = true.
Proof.
  destruct path as [|x [|y rest]]; simpl; try discriminate.
  - now rewrite andb_false_r.
  - intros H. apply andb_true_iff in H as [Hx H].
    apply andb_true_iff in H as [Hy H].
    apply String.eqb_eq in Hx, Hy. subst. eauto.
Qed.

Lemma matches_Doc_under (path : string) :
  matches (filePathPattern Doc) path = true ->
  exists rest, split slash path = "docs" :: "components" :: rest.
Proof.
  unfold matches. rewrite Doc_glob. intros H.
  apply glob_match_two_literals in H as (rest & E & _). eauto.
Qed.

Lemma matches_Project_under (path : string) :
  matches (filePathPattern Project) path = true ->
  exists rest, split slash path = "docs" :: "projects" :: rest.
Proof.
  unfold matches. rewrite Project_glob. intros H.
  apply glob_match_two_literals in H as (rest & E & _). eauto.
Qed.

Example component_page_is_Doc :
  name <$> document_type_of "docs/components/ui/button.mdx" = Some "Doc".
Proof. reflexivity. Qed.

Example project_page_is_Project :
  name <$> document_type_of "docs/projects/raon.mdx" = Some "Project".
Proof. reflexivity. Qed.

Example other_page_has_no_type :
  document_type_of "docs/guides/intro.mdx" = None /\
  document_type_of "docs/components/readme.md" = None.
Proof. split; reflexivity. Qed.

(** ** The regular expression of the first visitor *)

Lemma append_nil_l (t : string) : "" +:+ t = t.
Proof. reflexivity. Qed.

Lemma append_cons (c : ascii) (s t : string) :
  String c s +:+ t = String c (s +:+ t).
Proof. reflexivity. Qed.

Lemma strip_prefix_Some (p s t : string) :
  strip_prefix p s = Some t <-> s = p +:+ t.
Proof.
  revert s. induction p as [|a p IH]; intros s; simpl.
  - rewrite append_nil_l. split; congruence.
  - rewrite append_cons. destruct s as [|b s]; [split; discriminate|].
    destruct (Ascii.eqb_spec a b) as [->|Hne].
    + rewrite IH. split; congruence.
    + split; [discriminate | congruence].
Qed.

Lemma quoted_tail_Some (s group rest : string) :
  quoted_tail s = Some (group, rest) <->
  s = group +:+ String dquote rest /\ occurrences dquote group = 0.
Proof.
  revert group. induction s as [|c s IH]; intros group; simpl.
  - split; [discriminate|]. intros [H _]. now destruct group.
  - destruct (Ascii.eqb_spec c dquote) as [->|Hne].
    + split.
      * intros H. inversion H. subst. now split.
      * intros [H Hq]. destruct group as [|d group].
        -- rewrite append_nil_l in H. congruence.
        -- rewrite append_cons in H. inversion H. subst.
           simpl in Hq. discriminate Hq.
    + split.
      * destruct (quoted_tail s) as [[g r]|] eqn:E; [|discriminate].
        intros H. inversion H. subst.
        destruct (proj1 (IH g) eq_refl) as [-> Hq].
        split; [reflexivity|].
        simpl. now destruct (Ascii.eqb_spec c dquote).
      * intros [H Hq]. destruct group as [|d group].
        -- rewrite append_nil_l in H. congruence.
        -- rewrite append_cons in H. inversion H. subst.
           simpl in Hq. destruct (Ascii.eqb d dquote); [discriminate|].
           now rewrite (proj2 (IH group) (conj eq_refl Hq)).
Qed.

Lemma append_inj_l (p s t : string) : p +:+ s = p +:+ t -> s = t.
Proof.
  induction p as [|c p IH]; [now rewrite !append_nil_l|].
  rewrite !append_cons. intros H. inversion H. auto.
Qed.

Lemma event_here_Some (s group rest : string) :
  event_here s = Some (group, rest) <->
  s = event_head +:+ group +:+ String dquote rest /\
  occurrences dquote group = 0.
Proof.
  unfold event_here.
  destruct (strip_prefix event_head s) as [tail|] eqn:E.
  - apply strip_prefix_Some in E. subst s. rewrite quoted_tail_Some.
    split; intros [H Hq]; split; try assumption.
    + now rewrite H.
    + now apply append_inj_l in H.
  - split; [discriminate|]. intros [H _].
    assert (E' : strip_prefix event_head s
                 = Some (group +:+ String dquote rest))
      by now apply strip_prefix_Some.
    congruence.
Qed.

(** A match is an occurrence of the pattern: the head, a group without a
    quote, and the closing quote. *)
Lemma match_event_sound (s before group rest : string) :
  match_event s = Some (before, group, rest) ->
  s = before +:+ event_head +:+ group +:+ String dquote rest /\
  occurrences dquote group = 0.
Proof.
  revert before. induction s as [|c s IH]; intros before.
  - cbn [match_event].
    destruct (event_here "") as [[g r]|] eqn:E; [|discriminate].
    apply event_here_Some in E as [E _]. discriminate E.
  - cbn [match_event].
    destruct (event_here (String c s)) as [[g r]|] eqn:E.
    + intros H. inversion H. subst. now apply event_here_Some in E.
    + destruct (match_event s) as [[[b g] r]|]; [|discriminate].
      intros H. inversion H. subst.
      destruct (IH b eq_refl) as [-> Hq]. now split.
Qed.

(** Every occurrence of the pattern is found, at or before its place. *)
Lemma match_event_complete (before group rest : string) :
  occurrences dquote group = 0 ->
  exists before' group' rest',
    match_event (before +:+ event_head +:+ group +:+ String dquote rest)
      = Some (before', group', rest') /\
    String.length before' <= String.length before.
Proof.
  intros Hq. induction before as [|c before IH].
  - exists "", group, rest. split; [|simpl; lia].
    assert (E : event_here (event_head +:+ group +:+ String dquote rest)
                = Some (group, rest)) by now apply event_here_Some.
    rewrite append_nil_l.
    destruct (event_head +:+ group +:+ String dquote rest) eqn:Es;
      cbn [match_event]; now rewrite E.
  - destruct IH as (b & g & r & E & Hlen).
    rewrite append_cons. cbn [match_event].
    destruct (event_here _) as [[g' r']|].
    + exists "", g', r'. split; [reflexivity | simpl; lia].
    + rewrite E. exists (String c b), g, r. split; [reflexivity | simpl; lia].
Qed.

(** ** The visitors on one node *)

Lemma extract_event_Some (codeEl codeEl' : node) (event : string) :
  extract_event codeEl = Some (event, codeEl') ->
  exists meta before rest,
    data_meta codeEl = Some meta /\
    match_event meta = Some (before, event, rest) /\
    codeEl' = set_data_meta codeEl (before +:+ rest).
Proof.
  unfold extract_event. destruct (data_meta codeEl) as [meta|]; [|discriminate].
  destruct (String.eqb meta ""); [discriminate|].
  destruct (match_event meta) as [[[before group] rest]|] eqn:E; [|discriminate].
  intros H. inversion H. subst. eauto 6.
Qed.

(** What the first visitor returns: the node as it is when it is not a
    [pre] element around a [code] element, and otherwise the node with the
    four annotations set and the meta of its code element cut. *)
Lemma pre_highlight_visitor_inv (n n1 : node) :
  pre_highlight_visitor n = inr n1 ->
  (is_element "pre" n = false /\ n1 = n) \/
  (exists codeEl rest,
     children n = Some (codeEl :: rest) /\
     has_tag "code" codeEl = false /\ n1 = n) \/
  (is_element "pre" n = true /\
   exists codeEl rest codeEl1 event raw,
     children n = Some (codeEl :: rest) /\
     has_tag "code" codeEl = true /\
     shell codeEl1 = shell codeEl /\
     children codeEl1 = children codeEl /\
     first_child_value codeEl = inr raw /\
     n1 = mkNode (type n) (tagName n) (properties n)
            (Some (codeEl1 :: rest)) (value n) (data_meta n)
            event raw (property n "__src__") (property n "__style__")).
Proof.
  unfold pre_highlight_visitor.
  destruct (is_element "pre" n) eqn:Hpre; [|intros [= <-]; now left].
  destruct (children n) as [[|codeEl rest]|] eqn:Hcs; try discriminate.
  destruct (has_tag "code" codeEl) eqn:Hcode; simpl;
    [|intros [= <-]; right; left; eauto].
  destruct (extract_event codeEl) as [[event codeEl']|] eqn:Hev.
  - apply extract_event_Some in Hev as (meta & before & after & _ & _ & ->).
    change (first_child_value (set_data_meta codeEl (before +:+ after)))
      with (first_child_value codeEl).
    destruct (first_child_value codeEl) as [e|raw] eqn:Hraw; [discriminate|].
    intros [= <-]. right. right. split; [reflexivity|].
    exists codeEl, rest, (set_data_meta codeEl (before +:+ after)),
      (JStr event), raw.
    repeat split; try assumption; reflexivity.
  - destruct (first_child_value codeEl) as [e|raw] eqn:Hraw; [discriminate|].
    intros [= <-]. right. right. split; [reflexivity|].
    exists codeEl, rest, codeEl, (__event__ n), raw.
    repeat split; try assumption; reflexivity.
Qed.

(** The event of a code block: the group of the leftmost match in the
    meta of the code element, which loses the match. *)
Lemma pre_highlight_visitor_event
    (n codeEl : node) (rest : list node) (meta before group after : string)
    (raw : jsval) :
  is_element "pre" n = true ->
  children n = Some (codeEl :: rest) ->
  has_tag "code" codeEl = true ->
  data_meta codeEl = Some meta ->
  match_event meta = Some (before, group, after) ->
  first_child_value codeEl = inr raw ->
  pre_highlight_visitor n =
    inr (mkNode (type n) (tagName n) (properties n)
           (Some (set_data_meta codeEl (before +:+ after) :: rest))
           (value n) (data_meta n)
           (JStr group) raw (property n "__src__") (property n "__style__")).
Proof.
  intros Hpre Hcs Hcode Hmeta Hmatch Hraw.
  unfold pre_highlight_visitor. rewrite Hpre, Hcs, Hcode. simpl.
  unfold extract_event. rewrite Hmeta.
  destruct meta as [|c meta].
  - apply match_event_sound in Hmatch as [E _].
    destruct before; discriminate E.
  - change (String.eqb (String c meta) "") with false. cbv iota.
    rewrite Hmatch.
    change (first_child_value (set_data_meta codeEl (before +:+ after)))
      with (first_child_value codeEl).
    now rewrite Hraw.
Qed.

Lemma pre_highlight_visitor_shell (n n1 : node) :
  pre_highlight_visitor n = inr n1 -> shell n1 = shell n.
Proof.
  intros H. apply pre_highlight_visitor_inv in H as [[_ ->]|[H|[_ H]]].
  - reflexivity.
  - now destruct H as (codeEl & rest & _ & _ & ->).
  - now destruct H as (codeEl & rest & c1 & event & raw & _ & _ & _ & _ & _ & ->).
Qed.



Lemma set_last_last (cs : list node) (p : node) :
  last cs = Some p -> set_last cs p = cs.
Proof.
  unfold set_last. induction cs as [|c cs IH]; [discriminate|].
  destruct cs as [|c' cs]; simpl in *.
  - now intros [= ->].
  - intros H. f_equal. now apply IH.
Qed.


Lemma final_properties_src (n firstEl : node) (ps : gmap string jsval) :
  truthy (__src__ n) = true ->
  final_properties n firstEl ps !! "__src__" = Some (__src__ n).
Proof.
  intros H. unfold final_properties, copy_if_truthy. rewrite H.
  repeat case_match; now simplify_map_eq.
Qed.

Lemma final_properties_event (n firstEl : node) (ps : gmap string jsval) :
  truthy (__event__ n) = true ->
  final_properties n firstEl ps !! "__event__" = Some (__event__ n).
Proof.
  intros H. unfold final_properties, copy_if_truthy. rewrite H.
  repeat case_match; now simplify_map_eq.
Qed.

Lemma final_properties_style (n firstEl : node) (ps : gmap string jsval) :
  truthy (__style__ n) = true ->
  final_properties n firstEl ps !! "__style__" = Some (__style__ n).
Proof.
  intros H. unfold final_properties, copy_if_truthy. rewrite H.
  now simplify_map_eq.
Qed.

(** An annotation that is falsy is not copied: the property is as it was
    before the visitor. *)
Lemma final_properties_event_falsy (n firstEl : node) (ps : gmap string jsval) :
  truthy (__event__ n) = false ->
  final_properties n firstEl ps !! "__event__" = ps !! "__event__".
Proof.
  intros H. unfold final_properties, copy_if_truthy. rewrite H.
  repeat case_match; now simplify_map_eq.
Qed.

(** What the second visitor returns: the node as it is when it is not a
    marked [div] that ends in a [pre] element, and otherwise the node with
    the properties of that [pre] element extended. *)
Lemma post_highlight_visitor_inv (n n1 : node) :
  post_highlight_visitor n = inr n1 ->
  (marked n = false /\ n1 = n) \/
  (exists cs p,
     children n = Some cs /\ last cs = Some p /\
     has_tag "pre" p = false /\ n1 = n) \/
  (marked n = true /\
   exists cs p firstEl ps,
     children n = Some cs /\ last cs = Some p /\ head cs = Some firstEl /\
     has_tag "pre" p = true /\ properties p = Some ps /\
     n1 = set_children n
            (set_last cs (set_properties p (final_properties n firstEl ps)))).
Proof.
  unfold post_highlight_visitor, marked.
  destruct (is_element "div" n) eqn:Hdiv; [|intros [= <-]; now left].
  destruct (properties n) as [nps|] eqn:Hps; [|discriminate].
  destruct (bool_decide (is_Some (nps !! fragment_marker))) eqn:Hm; simpl;
    [|intros [= <-]; now left].
  destruct (children n) as [cs|] eqn:Hcs; [|discriminate].
  destruct (last cs) as [p|] eqn:Hlast; [|discriminate].
  destruct (head cs) as [firstEl|] eqn:Hhead; [|discriminate].
  destruct (has_tag "pre" p) eqn:Hpre; simpl;
    [|intros [= <-]; right; left; exists cs, p; auto].
  destruct (properties p) as [ps|] eqn:Hpps; [|discriminate].
  intros [= <-]. right. right. split; [reflexivity|].
  exists cs, p, firstEl, ps. repeat split; try assumption; reflexivity.
Qed.



(** ** The traversal *)

Lemma subnodes_unfold (n : node) :
  subnodes n = n :: match children n with
                    | Some l => flat_map subnodes l
                    | None => []
                    end.
Proof. now destruct n. Qed.

Lemma height_unfold (n : node) :
  height n = match children n with
             | Some l => S (max_height l)
             | None => 1
             end.
Proof. now destruct n. Qed.

Lemma height_same_children (a b : node) :
  children a = children b -> height a = height b.
Proof. intros H. now rewrite !height_unfold, H. Qed.

Lemma max_height_elem (c : node) (cs : list node) :
  c ∈ cs -> height c <= max_height cs.
Proof.
  induction cs as [|d cs IH]; intros H.
  - now apply not_elem_of_nil in H.
  - apply elem_of_cons in H as [->|H]; simpl; [lia|].
    specialize (IH H). lia.
Qed.



Section Traversal.

Variable visitor : node -> exn + node.

Lemma visit_all_Forall2
    (go : node -> option (exn + node)) (cs cs' : list node) :
  visit_all go cs = Some (inr cs') ->
  Forall2 (fun c c' => go c = Some (inr c')) cs cs'.
Proof.
  revert cs'. induction cs as [|c cs IH]; intros cs'; simpl.
  - intros [= <-]. constructor.
  - destruct (go c) as [[e|c']|] eqn:Hc; try discriminate.
    destruct (visit_all go cs) as [[e|rest']|]; try discriminate.
    intros [= <-]. constructor; auto.
Qed.

Lemma visit_all_total (go : node -> option (exn + node)) (cs : list node) :
  (forall c, c ∈ cs -> exists r, go c = Some r) ->
  exists r, visit_all go cs = Some r.
Proof.
  induction cs as [|c cs IH]; intros H; simpl; [eauto|].
  destruct (H c) as [[e|c'] ->]; [left|eauto|].
  destruct IH as [[e|rest'] ->]; eauto.
  intros d Hd. apply H. now right.
Qed.

(** One level of the traversal. *)
Lemma visit_inv (fuel : nat) (n n' : node) :
  visit fuel visitor n = Some (inr n') ->
  exists fuel' n1,
    fuel = S fuel' /\
    visitor n = inr n1 /\
    ((children n1 = None /\ n' = n1) \/
     exists cs cs',
       children n1 = Some cs /\
       Forall2 (fun c c' => visit fuel' visitor c = Some (inr c')) cs cs' /\
       n' = set_children n1 cs').
Proof.
  destruct fuel as [|fuel']; [discriminate|]. simpl.
  destruct (visitor n) as [e|n1] eqn:Hv; [discriminate|].
  destruct (children n1) as [cs|] eqn:Hcs.
  - destruct (visit_all (visit fuel' visitor) cs) as [[e|cs']|] eqn:Hall;
      try discriminate.
    intros [= <-]. exists fuel', n1. repeat split. right.
    exists cs, cs'. repeat split; [exact Hcs|].
    now apply visit_all_Forall2.
  - intros [= <-]. exists fuel', n1. repeat split. now left.
Qed.



(** The traversal ends when the fuel covers the height of the tree and the
    visitor does not make trees higher. *)
Lemma visit_total :
  (forall n n1, visitor n = inr n1 -> height n1 <= height n) ->
  forall fuel n, height n <= fuel -> exists r, visit fuel visitor n = Some r.
Proof.
  intros Hv fuel. induction fuel as [|fuel IH]; intros n Hn.
  - rewrite height_unfold in Hn. destruct (children n); lia.
  - simpl. destruct (visitor n) as [e|n1] eqn:Hn1; [eauto|].
    specialize (Hv n n1 Hn1). rewrite (height_unfold n1) in Hv.
    destruct (children n1) as [cs|]; [|eauto].
    destruct (visit_all_total (visit fuel visitor) cs) as [[e|cs'] ->]; eauto.
    intros c Hc. apply IH. apply max_height_elem in Hc. lia.
Qed.

End Traversal.

(** ** The two traversals of the pipeline *)

Lemma shell_set_children (n : node) (cs : list node) :
  shell (set_children n cs) = shell n.
Proof. reflexivity. Qed.

Lemma has_tag_shell (tag : string) (a b : node) :
  shell a = shell b -> has_tag tag a = has_tag tag b.
Proof. unfold shell, has_tag. now intros [= _ -> _ _]. Qed.


Lemma code_is_not_pre (c : node) :
  has_tag "code" c = true -> pre_highlight_visitor c = inr c.
Proof.
  unfold has_tag, pre_highlight_visitor, is_element. intros H.
  apply bool_decide_eq_true in H. rewrite H.
  now rewrite andb_false_r.
Qed.

Lemma pre_is_not_div (p : node) :
  has_tag "pre" p = true -> post_highlight_visitor p = inr p.
Proof.
  unfold has_tag, post_highlight_visitor, is_element. intros H.
  apply bool_decide_eq_true in H. rewrite H.
  now rewrite andb_false_r.
Qed.

Lemma Forall2_last_r {A B} (R : A -> B -> Prop)
    (l : list A) (k : list B) (y : B) :
  Forall2 R l k -> last k = Some y -> exists x, last l = Some x /\ R x y.
Proof.
  induction 1 as [|a b l k Hab Hlk IH]; [discriminate|].
  destruct Hlk as [|a' b' l k Hab' Hlk]; simpl in *.
  - intros [= <-]. eauto.
  - exact IH.
Qed.



Lemma pre_highlight_visitor_height (n n1 : node) :
  pre_highlight_visitor n = inr n1 -> height n1 <= height n.
Proof.
  intros H. apply pre_highlight_visitor_inv in H as [[_ ->]|[H|[_ H]]].
  - lia.
  - destruct H as (codeEl & rest & _ & _ & ->). lia.
  - destruct H as (codeEl & rest & c1 & event & raw & Hcs & _ & _ & Hch & _ & ->).
    rewrite (height_unfold n), Hcs, height_unfold.
    cbn [children max_height fold_right].
    rewrite (height_same_children c1 codeEl Hch). lia.
Qed.


(** *** The first traversal, node by node *)








(** *** The second traversal, node by node *)








(** *** The positions of a tree are those of the traversed tree *)




Section Positions.

Variable visitor : node -> exn + node.
Variable met : node -> node -> Prop.

Hypothesis visitor_child :
  forall n_in n n1 cs0 i c_in,
    met n_in n ->
    visitor n = inr n1 ->
    children n_in = Some cs0 ->
    cs0 !! i = Some c_in ->
    exists cs c, children n1 = Some cs /\ cs !! i = Some c /\ met c_in c.


End Positions.







(* ===================================================================== *)
(** * Further properties *)
(* ===================================================================== *)

(** ** Splitting and joining *)

Lemma split_nonempty (sep : ascii) (s : string) : split sep s <> [].
Proof.
  intros E. pose proof (split_length sep s) as H. now rewrite E in H.
Qed.

Lemma join_cons_char (sep : string) (c : ascii) (t : string) (ts : list string) :
  join sep (String c t :: ts) = String c (join sep (t :: ts)).
Proof. now destruct ts. Qed.

Lemma join_cons (sep t : string) (ts : list string) :
  ts <> [] -> join sep (t :: ts) = t +:+ sep +:+ join sep ts.
Proof. now destruct ts. Qed.

Lemma split_no_separator (sep : ascii) (t : string) :
  occurrences sep t = 0 -> split sep t = [t].
Proof.
  induction t as [|c t IH]; simpl; [reflexivity|].
  destruct (Ascii.eqb c sep); [discriminate|]. simpl.
  intros H. now rewrite (IH H).
Qed.

Lemma split_append (sep : ascii) (t u : string) :
  occurrences sep t = 0 ->
  split sep (t +:+ String sep u) = t :: split sep u.
Proof.
  induction t as [|c t IH].
  - intros _. rewrite append_nil_l. simpl. now rewrite Ascii.eqb_refl.
  - rewrite append_cons. simpl.
    destruct (Ascii.eqb c sep); [discriminate|]. simpl.
    intros H. now rewrite (IH H).
Qed.

(** Joining the pieces of a split with the separator gives the string
    back. *)
Lemma join_split_pieces (sep : ascii) (s : string) :
  join (String sep EmptyString) (split sep s) = s.
Proof.
  induction s as [|c s IH]; simpl; [reflexivity|].
  destruct (Ascii.eqb_spec c sep) as [->|Hne].
  - rewrite join_cons by apply split_nonempty. now rewrite IH.
  - destruct (split sep s) as [|t ts] eqn:E; [now apply split_nonempty in E|].
    rewrite join_cons_char. now rewrite IH.
Qed.

(** X1: joining the pieces of a split with the separator gives the string
    back. *)
Theorem join_split (sep : ascii) (s : string) :
  join (String sep EmptyString) (split sep s) = s.
Proof. exact (join_split_pieces sep s). Qed.

(** X2: splitting the join of pieces that do not contain the separator
    gives the pieces back; the list has to have a piece, since a split
    always has one. *)
Theorem split_join (sep : ascii) (l : list string) :
  l <> [] ->
  Forall (fun t => occurrences sep t = 0) l ->
  split sep (join (String sep EmptyString) l) = l.
Proof.
  intros Hne Hall. induction Hall as [|t ts Ht Hts IH]; [congruence|].
  destruct ts as [|u ts].
  - simpl. now apply split_no_separator.
  - rewrite join_cons by discriminate.
    rewrite (append_cons sep ""), append_nil_l.
    rewrite split_append by exact Ht. f_equal. now apply IH.
Qed.

Lemma split_join_witness :
  split slash (join "/" ["docs"; "components"; "button"])
    = ["docs"; "components"; "button"].
Proof.
  apply (split_join slash ["docs"; "components"; "button"]).
  - discriminate.
  - repeat constructor.
Defined.

(** ** The computed fields *)

(** X3: for a flattened path of two directories followed by anything,
    [slugAsParams] is what follows the two directories, and [slug] is the
    whole path under the root. *)
Theorem slugAsParams_strips_two_directories (a b rest : string) :
  occurrences slash a = 0 ->
  occurrences slash b = 0 ->
  slugAsParams (a +:+ "/" +:+ b +:+ "/" +:+ rest) = rest /\
  slug (a +:+ "/" +:+ b +:+ "/" +:+ rest)
    = "/" +:+ a +:+ "/" +:+ b +:+ "/" +:+ slugAsParams
                                           (a +:+ "/" +:+ b +:+ "/" +:+ rest).
Proof.
  intros Ha Hb.
  assert (E : slugAsParams (a +:+ "/" +:+ b +:+ "/" +:+ rest) = rest).
  { unfold slugAsParams.
    change ("/" +:+ b +:+ "/" +:+ rest) with (String slash (b +:+ "/" +:+ rest)).
    rewrite (split_append slash a) by exact Ha.
    change ("/" +:+ rest) with (String slash rest).
    rewrite (split_append slash b) by exact Hb.
    simpl drop. apply (join_split_pieces slash). }
  split; [exact E|]. now rewrite E.
Qed.

Lemma slugAsParams_strips_two_directories_witness :
  slugAsParams "docs/components/ui/button" = "ui/button" /\
  slug "docs/components/ui/button" = "/docs/components/ui/button".
Proof.
  apply (slugAsParams_strips_two_directories "docs" "components" "ui/button");
    reflexivity.
Defined.

(** X4: a flattened path with fewer than two slashes has the empty
    [slugAsParams]: there is nothing after the second directory. *)
Theorem slugAsParams_short_path (flattenedPath : string) :
  occurrences slash flattenedPath < 2 ->
  slugAsParams flattenedPath = "".
Proof.
  intros H. unfold slugAsParams.
  pose proof (split_length slash flattenedPath) as Hlen.
  destruct (split slash flattenedPath) as [|a [|b [|c l]]]; simpl in *;
    try reflexivity; lia.
Qed.

Lemma slugAsParams_short_path_witness :
  slugAsParams "docs/components" = "".
Proof. apply (slugAsParams_short_path "docs/components"). simpl. lia. Defined.

(** ** The form schema, field by field *)

Lemma z_string_valid (v : jsval) :
  (z_string v).1 = [] <-> exists s, v = JStr s.
Proof.
  destruct v; simpl; split; try discriminate; eauto;
    intros [? [=]].
Qed.

Lemma name_kr_schema_valid (v : jsval) :
  (name_kr_schema v).1 = [] <-> exists s, v = JStr s /\ s <> "".
Proof.
  destruct v as [| | | |s|]; try (split; [discriminate | intros (? & [=] & _)]).
  destruct s as [|c s]; simpl; split.
  - discriminate.
  - intros (? & [= <-] & H). congruence.
  - intros _. exists (String c s). now split.
  - reflexivity.
Qed.

(** On a string, the schema of [note] raises the issue that a note is
    required exactly for the empty string and the issue about commas
    exactly for a string without a comma, in this order: the refinement
    also runs when the length check failed.  On anything but a string the
    type issue is the only one, and the refinement is skipped. *)
Lemma note_schema_on (v : jsval) :
  note_schema v =
    match v with
    | JStr s => (note_issues s, Some s)
    | _ => ([invalid_type_issue "string" v], None)
    end.
Proof.
  destruct v as [| | | |s|]; try reflexivity.
  unfold note_schema, refine, min, note_issues.
  change (z_string (JStr s)) with (@nil ZodIssue, Some s). cbv beta iota.
  destruct s as [|c s]; [reflexivity|].
  change (Nat.ltb (String.length (String c s)) 1) with false.
  change (String.eqb (String c s) "") with false. cbv beta iota.
  rewrite note_refinement_includes.
  now destruct (includes comma (String c s)).
Qed.

(** X5: on a string, the schema of [note] raises the issue that a note is
    required exactly for the empty string and the issue about commas
    exactly for a string without a comma, in this order: the refinement
    also runs when the length check failed.  On anything but a string the
    type issue is the only one, and the refinement is skipped. *)
Theorem note_schema_issues (v : jsval) :
  note_schema v =
    match v with
    | JStr s => (note_issues s, Some s)
    | _ => ([invalid_type_issue "string" v], None)
    end.
Proof. exact (note_schema_on v). Qed.

Lemma note_schema_valid (v : jsval) :
  (note_schema v).1 = [] <-> exists s, v = JStr s /\ includes comma s = true.
Proof.
  rewrite note_schema_on.
  destruct v as [| | | |s|]; try (split; [discriminate | intros (? & [=] & _)]).
  unfold note_issues. simpl. split.
  - destruct s as [|c s]; [discriminate|]. simpl.
    destruct (includes comma (String c s)) eqn:E; [eauto | discriminate].
  - intros (? & [= <-] & H). rewrite H.
    apply includes_nonempty in H. now destruct s.
Qed.

Lemma optional_string_valid (v : jsval) :
  (optional z_string v).1 = [] <-> string_or_absent v.
Proof.
  unfold string_or_absent. destruct v; simpl; split; try discriminate;
    try (intros [[?|] [=]]).
  - now exists None.
  - reflexivity.
  - intros _. now exists (Some s).
  - reflexivity.
Qed.

Lemma prop_no_issue {A} (key : string) (sch : schema A) (v : jsval) :
  (prop key sch v).1 = [] <-> (sch v).1 = [].
Proof.
  rewrite prop_issues. split; [apply fmap_nil_inv | now intros ->].
Qed.

(** The value the form schema parses from a well-formed input. *)
Lemma formSchema_valid_value (input : jsval) (nk ne nt : string) :
  get input "name_kr" = JStr nk -> nk <> "" ->
  get input "name_en" = JStr ne ->
  get input "note" = JStr nt -> includes comma nt = true ->
  string_or_absent (get input "region") ->
  string_or_absent (get input "farm") ->
  string_or_absent (get input "variety") ->
  string_or_absent (get input "process") ->
  string_or_absent (get input "source") ->
  formSchema input =
    ([], Some (mkFormValues nk ne nt
                 (optional_value (get input "region"))
                 (optional_value (get input "farm"))
                 (optional_value (get input "variety"))
                 (optional_value (get input "process"))
                 (optional_value (get input "source")))).
Proof.
  intros Hkr Hnk Hen Hnote Hc Hr Hf Hv Hp Hs.
  assert (Hobj : is_object input = true)
    by (apply (get_object input "name_kr"); congruence).
  unfold formSchema, z_object. rewrite Hobj, Hkr, Hnote, Hen.
  rewrite (prop_valid "name_kr" _ _ nk) by now apply name_kr_schema_nonempty.
  rewrite (prop_valid "name_en" _ _ ne) by reflexivity.
  rewrite (prop_valid "note" _ _ nt) by now apply note_schema_comma.
  rewrite (prop_valid "region" _ _ _ (optional_string_or_absent _ Hr)).
  rewrite (prop_valid "farm" _ _ _ (optional_string_or_absent _ Hf)).
  rewrite (prop_valid "variety" _ _ _ (optional_string_or_absent _ Hv)).
  rewrite (prop_valid "process" _ _ _ (optional_string_or_absent _ Hp)).
  rewrite (prop_valid "source" _ _ _ (optional_string_or_absent _ Hs)).
  reflexivity.
Qed.

(** The client-side schema accepts an input exactly when [name_kr] is a
    non-empty string, [name_en] is a string, [note] is a string with a
    comma, and each of the five other fields is a string or absent. *)
Lemma form_accepts_conditions (input : jsval) :
  form_accepts input <->
  (exists s, get input "name_kr" = JStr s /\ s <> "") /\
  (exists s, get input "name_en" = JStr s) /\
  (exists s, get input "note" = JStr s /\ includes comma s = true) /\
  string_or_absent (get input "region") /\
  string_or_absent (get input "farm") /\
  string_or_absent (get input "variety") /\
  string_or_absent (get input "process") /\
  string_or_absent (get input "source").
Proof.
  split.
  - intros [values H]. apply safeParse_success in H.
    assert (Hobj : is_object input = true).
    { destruct (is_object input) eqn:E; [reflexivity|].
      unfold formSchema, z_object in H. rewrite E in H. discriminate H. }
    pose proof (formSchema_issues input Hobj) as Hiss. rewrite H in Hiss.
    simpl in Hiss. symmetry in Hiss.
    repeat (apply app_eq_nil in Hiss as [?%prop_no_issue Hiss]).
    apply prop_no_issue in Hiss.
    rewrite <- name_kr_schema_valid, <- z_string_valid, <- note_schema_valid,
      <- !optional_string_valid.
    repeat split; assumption.
  - intros ((nk & Hkr & Hnk) & (ne & Hen) & (nt & Hnote & Hc)
            & Hr & Hf & Hv & Hp & Hs).
    eexists. apply safeParse_success.
    now apply (formSchema_valid_value input nk ne nt).
Qed.

(** X6: the client-side schema accepts an input exactly when [name_kr] is a
    non-empty string, [name_en] is a string, [note] is a string with a
    comma, and each of the five other fields is a string or absent. *)
Theorem form_accepts_iff (input : jsval) :
  form_accepts input <->
  (exists s, get input "name_kr" = JStr s /\ s <> "") /\
  (exists s, get input "name_en" = JStr s) /\
  (exists s, get input "note" = JStr s /\ includes comma s = true) /\
  string_or_absent (get input "region") /\
  string_or_absent (get input "farm") /\
  string_or_absent (get input "variety") /\
  string_or_absent (get input "process") /\
  string_or_absent (get input "source").
Proof. exact (form_accepts_conditions input). Qed.

(** The values the resolver hands to [onSubmit] are the submitted
    ones, field by field, with an absent optional field left absent; they
    satisfy the two rules of the form. *)
Lemma resolve_success_inv (input : jsval) (values : FormValues) :
  resolve input = success values ->
  valid_values values /\
  get input "name_kr" = JStr (name_kr values) /\
  get input "name_en" = JStr (name_en values) /\
  get input "note" = JStr (note values) /\
  get input "region" = of_option (region values) /\
  get input "farm" = of_option (farm values) /\
  get input "variety" = of_option (variety values) /\
  get input "process" = of_option (process values) /\
  get input "source" = of_option (source values).
Proof.
  intros H.
  assert (Hacc : form_accepts input) by now exists values.
  apply form_accepts_conditions in Hacc
    as ((nk & Hkr & Hnk) & (ne & Hen) & (nt & Hnote & Hc)
        & Hr & Hf & Hv & Hp & Hs).
  apply safeParse_success in H.
  rewrite (formSchema_valid_value input nk ne nt) in H by assumption.
  injection H as <-. unfold valid_values. simpl.
  destruct Hr as [r ->], Hf as [f ->], Hv as [v ->], Hp as [p' ->],
    Hs as [s' ->].
  repeat split; try assumption;
    match goal with |- of_option ?o = _ => now destruct o end.
Qed.

(** X8: the values the resolver hands to [onSubmit] are the submitted
    ones, field by field, with an absent optional field left absent; they
    satisfy the two rules of the form. *)
Theorem resolved_values_are_submitted (input : jsval) (values : FormValues) :
  resolve input = success values ->
  valid_values values /\
  get input "name_kr" = JStr (name_kr values) /\
  get input "name_en" = JStr (name_en values) /\
  get input "note" = JStr (note values) /\
  get input "region" = of_option (region values) /\
  get input "farm" = of_option (farm values) /\
  get input "variety" = of_option (variety values) /\
  get input "process" = of_option (process values) /\
  get input "source" = of_option (source values).
Proof. exact (resolve_success_inv input values). Qed.

Lemma field_issue_path {A} (key : string) (sch : schema A) (v : jsval)
    (i : ZodIssue) :
  (forall j, j ∈ (sch v).1 -> path j = []) ->
  i ∈ (prop key sch v).1 -> path i = [key].
Proof.
  intros Hsch. rewrite prop_issues. intros Hi.
  apply list_elem_of_fmap in Hi as (j & -> & Hj). simpl.
  now rewrite (Hsch j Hj).
Qed.

Lemma z_string_issue_path (v : jsval) (j : ZodIssue) :
  j ∈ (z_string v).1 -> path j = [].
Proof.
  destruct v; simpl; intros H;
    try (apply list_elem_of_singleton in H; now subst).
  now apply not_elem_of_nil in H.
Qed.

Lemma name_kr_schema_issue_path (v : jsval) (j : ZodIssue) :
  j ∈ (name_kr_schema v).1 -> path j = [].
Proof.
  destruct v as [| | | |s|]; simpl; intros H;
    try (apply list_elem_of_singleton in H; now subst).
  destruct s; simpl in H.
  - apply list_elem_of_singleton in H. now subst.
  - now apply not_elem_of_nil in H.
Qed.

Lemma note_schema_issue_path (v : jsval) (j : ZodIssue) :
  j ∈ (note_schema v).1 -> path j = [].
Proof.
  rewrite note_schema_on.
  destruct v as [| | | |s|]; simpl; intros H;
    try (apply list_elem_of_singleton in H; now subst).
  unfold note_issues in H. apply elem_of_app in H as [H|H].
  - destruct (String.eqb s ""); [|now apply not_elem_of_nil in H].
    apply list_elem_of_singleton in H. now subst.
  - destruct (includes comma s); [now apply not_elem_of_nil in H|].
    apply list_elem_of_singleton in H. now subst.
Qed.

Lemma optional_string_issue_path (v : jsval) (j : ZodIssue) :
  j ∈ (optional z_string v).1 -> path j = [].
Proof.
  destruct v; simpl; intros H;
    try (apply list_elem_of_singleton in H; now subst);
    now apply not_elem_of_nil in H.
Qed.

(** X7: every issue the client-side schema raises on an object is placed
    at exactly one key of the form, so that it is shown under one field. *)
Theorem form_issue_at_one_field (input : jsval) (error : list ZodIssue)
    (i : ZodIssue) :
  is_object input = true ->
  resolve input = failure error ->
  i ∈ error ->
  exists key, key ∈ form_keys /\ path i = [key].
Proof.
  intros Hobj Hres Hi.
  assert (E : error = (formSchema input).1).
  { unfold resolve in Hres.
    destruct (formSchema input) as [[|j iss] [a|]]; simpl in *;
      now inversion Hres. }
  subst error. rewrite (formSchema_issues input Hobj) in Hi.
  unfold form_keys.
  repeat (apply elem_of_app in Hi as [Hi|Hi]).
  - exists "name_kr". split; [set_solver|].
    now apply (field_issue_path _ _ _ _ (name_kr_schema_issue_path _)) in Hi.
  - exists "name_en". split; [set_solver|].
    now apply (field_issue_path _ _ _ _ (z_string_issue_path _)) in Hi.
  - exists "note". split; [set_solver|].
    now apply (field_issue_path _ _ _ _ (note_schema_issue_path _)) in Hi.
  - exists "region". split; [set_solver|].
    now apply (field_issue_path _ _ _ _ (optional_string_issue_path _)) in Hi.
  - exists "farm". split; [set_solver|].
    now apply (field_issue_path _ _ _ _ (optional_string_issue_path _)) in Hi.
  - exists "variety". split; [set_solver|].
    now apply (field_issue_path _ _ _ _ (optional_string_issue_path _)) in Hi.
  - exists "process". split; [set_solver|].
    now apply (field_issue_path _ _ _ _ (optional_string_issue_path _)) in Hi.
  - exists "source". split; [set_solver|].
    now apply (field_issue_path _ _ _ _ (optional_string_issue_path _)) in Hi.
Qed.

Lemma form_issue_at_one_field_witness :
  exists key,
    key ∈ form_keys /\
    path (mkIssue custom ["note"] note_comma_separated) = [key].
Proof.
  apply (form_issue_at_one_field single_note_form
           [mkIssue custom ["note"] note_comma_separated]);
    [reflexivity | reflexivity | left].
Defined.

Lemma resolved_values_are_submitted_witness :
  valid_values (mkFormValues "Yirgacheffe" "" "Floral,Sweet"
                  (Some "") (Some "Kochere") None None None) /\
  get sparse_form "variety" = JUndefined.
Proof.
  destruct (resolved_values_are_submitted sparse_form
              (mkFormValues "Yirgacheffe" "" "Floral,Sweet"
                 (Some "") (Some "Kochere") None None None) eq_refl)
    as (Hvalid & _ & _ & _ & _ & _ & Hvariety & _).
  split; [exact Hvalid | exact Hvariety].
Defined.

(** ** From the form to the service *)

Lemma get_json_of_values (values : FormValues) :
  get (json_of_values values) "name_kr" = JStr (name_kr values) /\
  get (json_of_values values) "name_en" = JStr (name_en values) /\
  get (json_of_values values) "note" = JStr (note values) /\
  get (json_of_values values) "region" = of_option (region values) /\
  get (json_of_values values) "farm" = of_option (farm values) /\
  get (json_of_values values) "variety" = of_option (variety values) /\
  get (json_of_values values) "process" = of_option (process values) /\
  get (json_of_values values) "source" = of_option (source values).
Proof.
  destruct values as [nk ne nt [r|] [f|] [v|] [p|] [s|]];
    repeat split; reflexivity.
Qed.

Lemma optional_value_of_option (o : option string) :
  optional_value (of_option o) = o.
Proof. now destruct o. Qed.

(** The body the page posts for valid values passes the client-side
    schema again and parses to the same values: posting and reading back
    loses nothing. *)
Lemma resolve_json_of_values (values : FormValues) :
  valid_values values ->
  resolve (json_of_values values) = success values.
Proof.
  intros [Hnk Hc].
  destruct (get_json_of_values values)
    as (Hkr & Hen & Hnote & Hr & Hf & Hv & Hp & Hs).
  apply safeParse_success.
  rewrite (formSchema_valid_value _ _ _ _ Hkr Hnk Hen Hnote Hc)
    by (rewrite ?Hr, ?Hf, ?Hv, ?Hp, ?Hs; eexists; reflexivity).
  rewrite Hr, Hf, Hv, Hp, Hs, !optional_value_of_option.
  now destruct values.
Qed.

(** X9: the body the page posts for valid values passes the client-side
    schema again and parses to the same values: posting and reading back
    loses nothing. *)
Theorem posted_values_round_trip (values : FormValues) :
  valid_values values ->
  resolve (json_of_values values) = success values.
Proof. exact (resolve_json_of_values values). Qed.

Lemma posted_values_round_trip_witness :
  resolve (json_of_values
             (mkFormValues "Yirgacheffe" "" "Floral,Sweet"
                (Some "") None None None None))
    = success (mkFormValues "Yirgacheffe" "" "Floral,Sweet"
                 (Some "") None None None None).
Proof.
  apply (posted_values_round_trip
           (mkFormValues "Yirgacheffe" "" "Floral,Sweet"
              (Some "") None None None None)).
  split; [discriminate | reflexivity].
Defined.

Section ServiceProperties.

Variable field_value : CoffeeInfoField -> string.
Variable notion : World -> CoffeeInfo -> Settled.

Lemma CoffeeInfoDTO_strings (data : CoffeeInfoField -> jsval) (info : CoffeeInfo) :
  data NAME_KR = JStr (info_name_kr info) ->
  data NAME_EN = JStr (info_name_en info) ->
  data NOTE = JStr (info_note info) ->
  data REGION = JStr (info_region info) ->
  data FARM = JStr (info_farm info) ->
  data VARIETY = JStr (info_variety info) ->
  data PROCESS = JStr (info_process info) ->
  data SOURCE = JStr (info_source info) ->
  CoffeeInfoDTO field_value data = ([], Some info).
Proof.
  intros H1 H2 H3 H4 H5 H6 H7 H8. unfold CoffeeInfoDTO.
  rewrite H1, H2, H3, H4, H5, H6, H7, H8. now destruct info.
Qed.

(** The server-side schema accepts exactly the objects whose eight
    fields are strings, and the parsed record holds these strings as they
    are: neither an empty name nor a note without a comma is refused. *)
Lemma CoffeeInfoDTO_success_iff
    (data : CoffeeInfoField -> jsval) (info : CoffeeInfo) :
  safeParse (CoffeeInfoDTO field_value data) = success info <->
  data NAME_KR = JStr (info_name_kr info) /\
  data NAME_EN = JStr (info_name_en info) /\
  data NOTE = JStr (info_note info) /\
  data REGION = JStr (info_region info) /\
  data FARM = JStr (info_farm info) /\
  data VARIETY = JStr (info_variety info) /\
  data PROCESS = JStr (info_process info) /\
  data SOURCE = JStr (info_source info).
Proof.
  rewrite safeParse_success. split.
  - intros H.
    pose proof (CoffeeInfoDTO_issues field_value data) as Hiss.
    rewrite H in Hiss. simpl in Hiss. symmetry in Hiss.
    apply app_eq_nil in Hiss as [[s1 E1]%prop_no_issue%z_string_valid Hiss].
    apply app_eq_nil in Hiss as [[s2 E2]%prop_no_issue%z_string_valid Hiss].
    apply app_eq_nil in Hiss as [[s3 E3]%prop_no_issue%z_string_valid Hiss].
    apply app_eq_nil in Hiss as [[s4 E4]%prop_no_issue%z_string_valid Hiss].
    apply app_eq_nil in Hiss as [[s5 E5]%prop_no_issue%z_string_valid Hiss].
    apply app_eq_nil in Hiss as [[s6 E6]%prop_no_issue%z_string_valid Hiss].
    apply app_eq_nil in Hiss as [[s7 E7]%prop_no_issue%z_string_valid Hiss].
    apply prop_no_issue, z_string_valid in Hiss as [s8 E8].
    unfold CoffeeInfoDTO in H.
    rewrite E1, E2, E3, E4, E5, E6, E7, E8 in H.
    injection H as <-. simpl. repeat split; assumption.
  - intros (H1 & H2 & H3 & H4 & H5 & H6 & H7 & H8).
    now apply CoffeeInfoDTO_strings.
Qed.

(** X10: the server-side schema accepts exactly the objects whose eight
    fields are strings, and the parsed record holds these strings as they
    are: neither an empty name nor a note without a comma is refused. *)
Theorem CoffeeInfoDTO_accepts_iff
    (data : CoffeeInfoField -> jsval) (info : CoffeeInfo) :
  safeParse (CoffeeInfoDTO field_value data) = success info <->
  data NAME_KR = JStr (info_name_kr info) /\
  data NAME_EN = JStr (info_name_en info) /\
  data NOTE = JStr (info_note info) /\
  data REGION = JStr (info_region info) /\
  data FARM = JStr (info_farm info) /\
  data VARIETY = JStr (info_variety info) /\
  data PROCESS = JStr (info_process info) /\
  data SOURCE = JStr (info_source info).
Proof. exact (CoffeeInfoDTO_success_iff data info). Qed.

(** For values of the form, the body the page posts passes the
    server-side schema exactly when each of the five optional fields is
    present, and then the record handed to [createCoffeeInfo] holds the
    values of the form unchanged. *)
Lemma CoffeeInfoDTO_json_of_values (values : FormValues) :
  match info_of_values values with
  | Some info =>
      safeParse (CoffeeInfoDTO field_value (dto_literal (json_of_values values)))
        = success info
  | None =>
      is_success
        (safeParse (CoffeeInfoDTO field_value
                      (dto_literal (json_of_values values))))
        = false
  end.
Proof.
  destruct (info_of_values values) as [info|] eqn:E.
  - apply CoffeeInfoDTO_success_iff.
    destruct (get_json_of_values values)
      as (Hkr & Hen & Hnote & Hr & Hf & Hv & Hp & Hs).
    cbn [dto_literal]. rewrite Hkr, Hen, Hnote, Hr, Hf, Hv, Hp, Hs.
    destruct values as [nk ne nt [r|] [f|] [v|] [p|] [s|]];
      try discriminate E.
    injection E as <-. repeat split.
  - destruct (safeParse _) as [info|iss] eqn:Hp; [|reflexivity].
    apply CoffeeInfoDTO_success_iff in Hp as (_ & _ & _ & Hr & Hf & Hv & Hp & Hs).
    destruct (get_json_of_values values)
      as (_ & _ & _ & Hr' & Hf' & Hv' & Hp' & Hs').
    cbn [dto_literal] in Hr, Hf, Hv, Hp, Hs.
    rewrite Hr' in Hr. rewrite Hf' in Hf. rewrite Hv' in Hv.
    rewrite Hp' in Hp. rewrite Hs' in Hs.
    destruct values as [nk ne nt [r|] [f|] [v|] [p|] [s|]];
      discriminate.
Qed.

(** X11: for values of the form, the body the page posts passes the
    server-side schema exactly when each of the five optional fields is
    present, and then the record handed to [createCoffeeInfo] holds the
    values of the form unchanged. *)
Theorem posted_values_reach_service (values : FormValues) :
  match info_of_values values with
  | Some info =>
      safeParse (CoffeeInfoDTO field_value (dto_literal (json_of_values values)))
        = success info
  | None =>
      is_success
        (safeParse (CoffeeInfoDTO field_value
                      (dto_literal (json_of_values values))))
        = false
  end.
Proof. exact (CoffeeInfoDTO_json_of_values values). Qed.

End ServiceProperties.

(** ** The page *)

Lemma page_step_invariant (page : Page) (e : PageEvent) :
  page_invariant page -> page_invariant (page_step page e).
Proof.
  intros [Hcur Hposted]. destruct e as [input|open|]; simpl.
  - unfold handleSubmit.
    destruct (resolve input) as [values|error] eqn:E; [|now split].
    split; [|exact Hposted]. simpl. intros v [= <-].
    now apply resolve_success_inv in E as [Hvalid _].
  - now split.
  - unfold onClick. destruct (currentValues page) as [values|] eqn:E.
    + split; [exact Hcur|]. simpl. intros body Hbody.
      apply elem_of_app in Hbody as [Hbody|Hbody]; [now apply Hposted|].
      apply list_elem_of_singleton in Hbody as ->. eauto.
    + split; [intros v Hv; congruence | exact Hposted].
Qed.

Lemma page_run_invariant (events : list PageEvent) (page : Page) :
  page_invariant page -> page_invariant (fold_left page_step events page).
Proof.
  revert page. induction events as [|e events IH]; intros page H;
    [exact H|].
  simpl. apply IH. now apply page_step_invariant.
Qed.

(** X12: whatever happens on the page, every body it posts is the body of
    values that satisfy the rules of the form, and passes the client-side
    schema as it is. *)
Theorem page_posts_only_valid (events : list PageEvent) (body : jsval) :
  body ∈ posted (page_run events) ->
  exists values,
    valid_values values /\
    body = json_of_values values /\
    resolve body = success values.
Proof.
  intros Hbody.
  assert (Hinit : page_invariant initial_page).
  { split; [discriminate|]. intros b Hb. now apply not_elem_of_nil in Hb. }
  destruct (page_run_invariant events initial_page Hinit) as [_ Hposted].
  destruct (Hposted body Hbody) as (values & Hvalid & ->).
  exists values. repeat split; try apply Hvalid.
  now apply resolve_json_of_values.
Qed.

Lemma page_posts_only_valid_witness :
  posted (page_run confirmed_run) = [sparse_form] /\
  exists values,
    valid_values values /\
    sparse_form = json_of_values values /\
    resolve sparse_form = success values.
Proof.
  split; [reflexivity|].
  apply (page_posts_only_valid confirmed_run sparse_form). left.
Defined.

Lemma page_step_nothing_accepted (page : Page) (e : PageEvent) :
  (forall input, e = SubmitForm input -> ~ form_accepts input) ->
  currentValues page = None -> posted page = [] ->
  currentValues (page_step page e) = None /\ posted (page_step page e) = [].
Proof.
  intros He Hcur Hposted. destruct e as [input|open|]; simpl.
  - unfold handleSubmit. destruct (resolve input) as [values|error] eqn:E;
      [|now split].
    exfalso. apply (He input eq_refl). now exists values.
  - now split.
  - unfold onClick. rewrite Hcur. now split.
Qed.

(** X13: as long as no submitted form passes the client-side schema,
    nothing is posted, however often the dialog is confirmed. *)
Theorem page_posts_nothing_refused (events : list PageEvent) :
  (forall input, SubmitForm input ∈ events -> ~ form_accepts input) ->
  posted (page_run events) = [].
Proof.
  unfold page_run.
  assert (H : forall page,
             (forall input, SubmitForm input ∈ events -> ~ form_accepts input) ->
             currentValues page = None -> posted page = [] ->
             posted (fold_left page_step events page) = []).
  { induction events as [|e events IH]; intros page Hev Hcur Hposted;
      [exact Hposted|].
    simpl.
    destruct (page_step_nothing_accepted page e) as [Hcur' Hposted'];
      try assumption.
    - intros input ->. apply Hev. left.
    - apply IH; try assumption. intros input Hin. apply Hev. now right. }
  intros Hev. now apply H.
Qed.

Lemma page_posts_nothing_refused_witness :
  posted (page_run refused_run) = [].
Proof.
  apply (page_posts_nothing_refused refused_run).
  intros input Hin [values Hres]. unfold refused_run in Hin.
  repeat (apply elem_of_cons in Hin as [[= ->]|Hin]; try discriminate Hres).
  now apply not_elem_of_nil in Hin.
Defined.

(** ** The action on every request *)

Section ActionInvariant.

Variable field_value : CoffeeInfoField -> string.
Variable notion : World -> CoffeeInfo -> Settled.

(** Reading the response does not touch the world, and a redirect goes to
    a path under [/coffee/]. *)
Lemma after_create_pure (response : jsval) (w : World) :
  exists r,
    after_create field_value response w = (w, r) /\
    forall resp, r = inr resp ->
                 status resp = 302 /\
                 exists number, location resp = coffee_path number.
Proof.
  unfold after_create, bind, in_, response_number, bind, member, ret, throw.
  destruct (truthy response); [|eexists; split; [reflexivity|];
    intros resp [= <-]; split; [reflexivity|]; now exists (JNum 0)].
  destruct (is_object response); [|eexists; split; [reflexivity|discriminate]].
  destruct (has response "properties");
    [|eexists; split; [reflexivity|];
      intros resp [= <-]; split; [reflexivity|]; now exists (JNum 0)].
  destruct (nullish response); [eexists; split; [reflexivity|discriminate]|].
  destruct (nullish (get response "properties"));
    [eexists; split; [reflexivity|discriminate]|].
  destruct (nullish (get (get response "properties") (field_value ID)));
    [eexists; split; [reflexivity|];
      intros resp [= <-]; split; [reflexivity|]; now exists JUndefined|].
  destruct (nullish _); [eexists; split; [reflexivity|discriminate]|].
  eexists; split; [reflexivity|].
  intros resp [= <-]; split; [reflexivity|]. eexists. reflexivity.
Qed.

(** X14: on every request the action either throws before any call of
    [createCoffeeInfo], leaving the world as it was, or calls it exactly
    once with the record parsed from the body; it returns a response only
    in the second case and only when the call was fulfilled, and the
    response is a 302 redirect to a path under [/coffee/]. *)
Theorem action_creates_at_most_once (request : Request) (w : World) :
  (exists e, action field_value notion request w = (w, inl e)) \/
  (exists body coffeeInfo r,
     json request = Some body /\
     safeParse (CoffeeInfoDTO field_value (dto_literal body))
       = success coffeeInfo /\
     action field_value notion request w = (w ++ [coffeeInfo], r) /\
     forall resp,
       r = inr resp ->
       status resp = 302 /\
       (exists number, location resp = coffee_path number) /\
       exists response, notion w coffeeInfo = fulfilled response).
Proof.
  destruct (json request) as [body|] eqn:Hjson.
  - rewrite (action_body field_value notion request body w Hjson).
    destruct (nullish body); [left; eauto|].
    destruct (safeParse _) as [coffeeInfo|iss] eqn:Hparse; [|left; eauto].
    right. exists body, coffeeInfo.
    destruct (notion w coffeeInfo) as [response|reason] eqn:Hreply.
    + destruct (after_create_pure response (w ++ [coffeeInfo]))
        as (r & Hr & Hresp).
      exists r. split; [reflexivity|]. split; [exact Hparse|].
      split; [exact Hr|]. intros resp H.
      destruct (Hresp resp H) as [Hs Hl]. eauto.
    + eexists. split; [reflexivity|]. split; [exact Hparse|].
      split; [reflexivity | discriminate].
  - left. exists SyntaxError.
    unfold action, request_json, bind. now rewrite Hjson.
Qed.

End ActionInvariant.

Lemma to_string_number_injective (n m : Z) :
  to_string (JNum n) = to_string (JNum m) -> n = m.
Proof.
  simpl. intros H. apply DecimalZ.to_int_inj.
  assert (Hnil : forall z, Z.to_int z <> Decimal.Pos Decimal.Nil /\
                           Z.to_int z <> Decimal.Neg Decimal.Nil).
  { intros [|p|p]; simpl; split; try discriminate;
      intros [= E]; now apply DecimalPos.Unsigned.to_uint_nonnil in E. }
  destruct (Hnil n) as [Hn1 Hn2], (Hnil m) as [Hm1 Hm2].
  pose proof (NilZero.isi _ Hn1 Hn2) as En.
  pose proof (NilZero.isi _ Hm1 Hm2) as Em.
  rewrite H in En. congruence.
Qed.

(** X15: records whose numbers are different safe integers are redirected
    to different paths: the path of the redirect determines the number,
    the number 0 included. *)
Theorem coffee_path_injective (n m : Z) :
  safe_integer n -> safe_integer m ->
  n <> m -> coffee_path (JNum n) <> coffee_path (JNum m).
Proof.
  intros _ _ Hne H. apply Hne. unfold coffee_path in H.
  apply append_inj_l in H.
  assert (E : forall z, or_else (JNum z) (JNum 0) = JNum z).
  { intros z. unfold or_else. simpl.
    destruct (Z.eqb_spec z 0) as [->|]; reflexivity. }
  rewrite !E in H. now apply to_string_number_injective.
Qed.

Lemma coffee_path_injective_witness :
  coffee_path (JNum 41) <> coffee_path (JNum 42).
Proof.
  apply (coffee_path_injective 41 42);
    [split; reflexivity | split; reflexivity | discriminate].
Defined.

Lemma action_without_identifier_witness :
  action sample_field_value (always (fulfilled (JObj ∅)))
    (mkRequest (Some full_body)) []
    = ([full_info], inr (redirect "/coffee/0")).
Proof.
  apply (action_without_identifier sample_field_value
           (always (fulfilled (JObj ∅)))
           (mkRequest (Some full_body)) full_body full_info (JObj ∅) []);
    try reflexivity.
  right. left. split; reflexivity.
Defined.

Lemma action_with_identifier_witness :
  action sample_field_value (always (fulfilled response_with_unique_id))
    (mkRequest (Some full_body)) []
    = ([full_info], inr (redirect "/coffee/42")) /\
  action sample_field_value (always (fulfilled response_without_number))
    (mkRequest (Some full_body)) []
    = ([full_info], inr (redirect "/coffee/0")).
Proof.
  split.
  - exact (action_with_identifier sample_field_value
             (always (fulfilled response_with_unique_id))
             (mkRequest (Some full_body)) full_body full_info
             response_with_unique_id (JObj {[ "number" := JNum 42 ]}) [] 42
             eq_refl eq_refl eq_refl eq_refl eq_refl eq_refl eq_refl
             eq_refl eq_refl eq_refl).
  - exact (action_with_identifier sample_field_value
             (always (fulfilled response_without_number))
             (mkRequest (Some full_body)) full_body full_info
             response_without_number (JObj ∅) [] 0
             eq_refl eq_refl eq_refl eq_refl eq_refl eq_refl eq_refl
             eq_refl eq_refl eq_refl).
Defined.

(** ** The traversals keep the shape of the tree *)

Lemma outline_unfold {L} (label : node -> L) (n : node) :
  outline label n =
    Outline (label n)
      match children n with
      | Some l => Some (map (outline label) l)
      | None => None
      end.
Proof. now destruct n. Qed.

Lemma outline_same_children {L} (label : node -> L) (a b : node) :
  label a = label b -> children a = children b ->
  outline label a = outline label b.
Proof. intros Hl Hc. now rewrite !outline_unfold, Hl, Hc. Qed.

Lemma set_children_id (n : node) (cs : list node) :
  children n = Some cs -> set_children n cs = n.
Proof. destruct n. simpl. now intros ->. Qed.

Section TraversalShape.

Variable visitor : node -> exn + node.

Lemma visit_outline {L} (label : node -> L) :
  (forall n cs, label (set_children n cs) = label n) ->
  (forall n n1, visitor n = inr n1 -> outline label n1 = outline label n) ->
  forall fuel n n',
    visit fuel visitor n = Some (inr n') ->
    outline label n' = outline label n.
Proof.
  intros Hset Hv fuel. induction fuel as [|fuel IH]; intros n n' H;
    [discriminate|].
  apply visit_inv in H as (f & n1 & [= <-] & Hn1 & [[_ ->]|H]);
    [now apply Hv|].
  destruct H as (cs & cs' & Hcs & Hall & ->).
  rewrite <- (Hv n n1 Hn1), (outline_unfold label n1), Hcs.
  rewrite outline_unfold, Hset. simpl. do 2 f_equal. clear Hcs.
  induction Hall as [|c c' cs cs' Hc Hall IHall]; [reflexivity|].
  simpl. f_equal; [now apply IH | exact IHall].
Qed.

Lemma visit_all_identity (go : node -> option (exn + node)) (cs : list node) :
  (forall c, c ∈ cs -> go c = Some (inr c)) ->
  visit_all go cs = Some (inr cs).
Proof.
  induction cs as [|c cs IH]; intros H; simpl; [reflexivity|].
  rewrite (H c) by left. rewrite IH; [reflexivity|].
  intros d Hd. apply H. now right.
Qed.

(** A visitor that returns every node of a tree as it is leaves the tree
    as it is. *)
Lemma visit_identity :
  forall fuel n,
    height n <= fuel ->
    (forall m, m ∈ subnodes n -> visitor m = inr m) ->
    visit fuel visitor n = Some (inr n).
Proof.
  intros fuel. induction fuel as [|fuel IH]; intros n Hn Hall.
  - rewrite height_unfold in Hn. destruct (children n); lia.
  - simpl. rewrite (Hall n) by (rewrite subnodes_unfold; left).
    rewrite subnodes_unfold in Hall. rewrite height_unfold in Hn.
    destruct (children n) as [cs|] eqn:Hcs; [|reflexivity].
    rewrite visit_all_identity; [now rewrite set_children_id|].
    intros c Hc. apply IH.
    + apply max_height_elem in Hc. lia.
    + intros m Hm. apply Hall. right.
      apply list_elem_of_In, in_flat_map. exists c.
      split; now apply list_elem_of_In.
Qed.

End TraversalShape.

Lemma pre_highlight_visitor_outline (n n1 : node) :
  pre_highlight_visitor n = inr n1 -> outline shell n1 = outline shell n.
Proof.
  intros H. apply pre_highlight_visitor_inv in H as [[_ ->]|[H|[_ H]]].
  - reflexivity.
  - now destruct H as (codeEl & rest & _ & _ & ->).
  - destruct H as (codeEl & rest & c1 & event & raw & Hcs & _ & Hsh & Hch & _ & ->).
    rewrite (outline_unfold shell n), Hcs, outline_unfold. simpl.
    now rewrite (outline_same_children shell c1 codeEl Hsh Hch).
Qed.

Lemma map_outline_set_last {L} (label : node -> L) (cs : list node) (p p' : node) :
  last cs = Some p ->
  outline label p' = outline label p ->
  map (outline label) (set_last cs p') = map (outline label) cs.
Proof.
  intros Hlast Hp. rewrite <- (set_last_last cs p Hlast) at 2.
  unfold set_last. rewrite !map_app. simpl. now rewrite Hp.
Qed.

Lemma post_highlight_visitor_outline (n n1 : node) :
  post_highlight_visitor n = inr n1 -> outline content n1 = outline content n.
Proof.
  intros H. apply post_highlight_visitor_inv in H as [[_ ->]|[H|[_ H]]].
  - reflexivity.
  - now destruct H as (cs & p & _ & _ & _ & ->).
  - destruct H as (cs & p & f & ps & Hcs & Hlast & _ & _ & _ & ->).
    rewrite (outline_unfold content n), Hcs, outline_unfold. simpl.
    rewrite (map_outline_set_last content cs p); [reflexivity | exact Hlast |].
    now apply outline_same_children.
Qed.

(** X18: the traversal before the highlighter keeps the shape of the tree
    and, on every node, the type, the tag name, the properties and the
    value: it only sets annotations and cuts metas. *)
Theorem pre_highlight_keeps_shell (tree tree' : node) :
  pre_highlight tree = Some (inr tree') ->
  outline shell tree' = outline shell tree.
Proof.
  apply (visit_outline pre_highlight_visitor shell shell_set_children
           pre_highlight_visitor_outline).
Qed.

Lemma pre_highlight_keeps_shell_witness :
  exists tree',
    pre_highlight click_block = Some (inr tree') /\
    tree' <> click_block /\
    outline shell tree' = outline shell click_block.
Proof.
  destruct (pre_highlight click_block) as [[e|tree']|] eqn:E;
    try discriminate E.
  exists tree'. split; [reflexivity|]. split.
  - injection E as <-. discriminate.
  - now apply (pre_highlight_keeps_shell click_block tree').
Defined.

(** X19: the traversal after the highlighter keeps the shape of the tree
    and, on every node, everything but the properties: the type, the tag
    name, the value, the meta and the four annotations. *)
Theorem post_highlight_keeps_content (tree tree' : node) :
  post_highlight tree = Some (inr tree') ->
  outline content tree' = outline content tree.
Proof.
  apply (visit_outline post_highlight_visitor content (fun _ _ => eq_refl)
           post_highlight_visitor_outline).
Qed.

Lemma post_highlight_keeps_content_witness :
  exists tree',
    post_highlight click_fragment = Some (inr tree') /\
    tree' <> click_fragment /\
    outline content tree' = outline content click_fragment.
Proof.
  destruct (post_highlight click_fragment) as [[e|tree']|] eqn:E;
    try discriminate E.
  exists tree'. split; [reflexivity|]. split.
  - intros ->. revert E. vm_compute. discriminate.
  - now apply (post_highlight_keeps_content click_fragment tree').
Defined.

(** X20: a tree without [pre] elements goes through the traversal before
    the highlighter as it is. *)
Theorem pre_highlight_without_pre (tree : node) :
  (forall m, m ∈ subnodes tree -> is_element "pre" m = false) ->
  pre_highlight tree = Some (inr tree).
Proof.
  intros H. apply visit_identity; [lia|].
  intros m Hm. unfold pre_highlight_visitor. now rewrite (H m Hm).
Qed.

Lemma pre_highlight_without_pre_witness :
  pre_highlight prose_tree = Some (inr prose_tree).
Proof.
  apply (pre_highlight_without_pre prose_tree).
  intros m Hm. vm_compute in Hm.
  repeat (apply elem_of_cons in Hm as [->|Hm]; [reflexivity|]).
  now apply not_elem_of_nil in Hm.
Defined.

(** X21: a tree in which no [div] is marked as a code fragment, and every
    [div] has properties, goes through the traversal after the highlighter
    as it is. *)
Theorem post_highlight_without_fragment (tree : node) :
  (forall m, m ∈ subnodes tree ->
             marked m = false /\
             (is_element "div" m = true -> is_Some (properties m))) ->
  post_highlight tree = Some (inr tree).
Proof.
  intros H. apply visit_identity; [lia|].
  intros m Hm. destruct (H m Hm) as [Hmarked Hprops].
  unfold post_highlight_visitor. unfold marked in Hmarked.
  destruct (is_element "div" m); [|reflexivity].
  destruct (Hprops eq_refl) as [ps Hps]. rewrite Hps in *.
  simpl in Hmarked. now rewrite Hmarked.
Qed.

Lemma post_highlight_without_fragment_witness :
  post_highlight click_block = Some (inr click_block).
Proof.
  apply (post_highlight_without_fragment click_block).
  intros m Hm. vm_compute in Hm.
  repeat (apply elem_of_cons in Hm as [->|Hm];
          [split; [reflexivity | discriminate]|]).
  now apply not_elem_of_nil in Hm.
Defined.

(** ** When the traversal before the highlighter throws *)

Lemma pre_highlight_throws_malformed (n : node) :
  pre_highlight_throws n = malformed_block n.
Proof.
  unfold pre_highlight_throws, malformed_block, pre_highlight_visitor.
  destruct (is_element "pre" n); [|reflexivity].
  destruct (children n) as [[|codeEl rest]|]; try reflexivity.
  destruct (has_tag "code" codeEl); [|reflexivity]. simpl.
  destruct (extract_event codeEl) as [[event codeEl']|] eqn:Hev.
  - apply extract_event_Some in Hev as (? & ? & ? & _ & _ & ->).
    change (first_child_value (set_data_meta codeEl ?m))
      with (first_child_value codeEl).
    unfold first_child_value. now destruct (children codeEl) as [[|]|].
  - unfold first_child_value. now destruct (children codeEl) as [[|]|].
Qed.

Lemma pre_highlight_visitor_exn (n : node) (e : exn) :
  pre_highlight_visitor n = inl e -> e = TypeError.
Proof.
  unfold pre_highlight_visitor.
  destruct (is_element "pre" n); [|discriminate].
  destruct (children n) as [[|codeEl rest]|]; try now intros [= <-].
  destruct (has_tag "code" codeEl); [|discriminate]. simpl.
  destruct (extract_event codeEl) as [[event codeEl']|];
    unfold first_child_value;
    match goal with |- context [children ?c] =>
      destruct (children c) as [[|]|] end;
    try discriminate; now intros [= <-].
Qed.

Lemma outline_inv {L} (label : node -> L) (a b : node) :
  outline label a = outline label b ->
  label a = label b /\
  match children a, children b with
  | Some la, Some lb => map (outline label) la = map (outline label) lb
  | None, None => True
  | _, _ => False
  end.
Proof.
  rewrite !outline_unfold. intros [= Hl Hc]. split; [exact Hl|].
  destruct (children a), (children b); try discriminate; [|exact I].
  now injection Hc.
Qed.

Lemma is_element_shell (tag : string) (a b : node) :
  shell a = shell b -> is_element tag a = is_element tag b.
Proof. unfold shell, is_element. now intros [= -> -> _ _]. Qed.

(** Whether a block is malformed shows in its outline. *)
Lemma malformed_block_outline (a b : node) :
  outline shell a = outline shell b ->
  malformed_block a = malformed_block b.
Proof.
  intros H. apply outline_inv in H as [Hsh Hcs].
  unfold malformed_block. rewrite (is_element_shell "pre" a b Hsh).
  destruct (children a) as [[|ca la]|], (children b) as [[|cb lb]|];
    try reflexivity; try contradiction; try discriminate Hcs.
  simpl in Hcs. injection Hcs as Hc _.
  apply outline_inv in Hc as [Hcsh Hccs].
  rewrite (has_tag_shell "code" ca cb Hcsh).
  destruct (children ca) as [[|]|], (children cb) as [[|]|];
    try reflexivity; try contradiction; discriminate Hccs.
Qed.

Lemma visit_pre_highlight_exn (fuel : nat) (n : node) (e : exn) :
  visit fuel pre_highlight_visitor n = Some (inl e) -> e = TypeError.
Proof.
  revert n. induction fuel as [|fuel IH]; intros n; [discriminate|]. simpl.
  destruct (pre_highlight_visitor n) as [e'|n1] eqn:Hv.
  - intros [= <-]. now apply pre_highlight_visitor_exn in Hv.
  - destruct (children n1) as [cs|]; [|discriminate].
    destruct (visit_all _ cs) as [[e'|cs']|] eqn:Hall; try discriminate.
    intros [= <-]. clear -IH Hall. revert Hall.
    induction cs as [|c cs IHcs]; simpl; [discriminate|].
    destruct (visit fuel pre_highlight_visitor c) as [[e|c']|] eqn:Hc;
      try discriminate.
    + intros [= <-]. now apply IH in Hc.
    + destruct (visit_all _ cs) as [[e|cs']|]; try discriminate.
      intros [= <-]. now apply IHcs.
Qed.

Lemma elem_of_subnodes_children (n c m : node) (cs : list node) :
  children n = Some cs -> c ∈ cs -> m ∈ subnodes c -> m ∈ subnodes n.
Proof.
  intros Hcs Hc Hm. rewrite subnodes_unfold, Hcs. right.
  apply list_elem_of_In, in_flat_map. exists c.
  split; now apply list_elem_of_In.
Qed.

Lemma visit_pre_highlight_throws (fuel : nat) :
  forall n n0,
    height n <= fuel ->
    outline shell n = outline shell n0 ->
    (visit fuel pre_highlight_visitor n = Some (inl TypeError) <->
     exists m, m ∈ subnodes n0 /\ malformed_block m = true).
Proof.
  induction fuel as [|fuel IH]; intros n n0 Hn Hout.
  - rewrite height_unfold in Hn. destruct (children n); lia.
  - pose proof (malformed_block_outline n n0 Hout) as Hmal.
    rewrite <- pre_highlight_throws_malformed in Hmal.
    unfold pre_highlight_throws in Hmal. simpl.
    destruct (pre_highlight_visitor n) as [e|n1] eqn:Hv.
    + apply pre_highlight_visitor_exn in Hv as ->. split; [|reflexivity].
      intros _. exists n0. split; [rewrite subnodes_unfold; left | now symmetry].
    + pose proof (pre_highlight_visitor_outline n n1 Hv) as Hout1.
      pose proof (pre_highlight_visitor_height n n1 Hv) as Hh1.
      rewrite Hout in Hout1. apply outline_inv in Hout1 as [_ Hcs].
      rewrite (height_unfold n1) in Hh1.
      rewrite (subnodes_unfold n0).
      destruct (children n1) as [cs|], (children n0) as [cs0|] eqn:Hcs0;
        try contradiction.
      * assert (Hheights : forall c, c ∈ cs -> height c <= fuel)
          by (intros c Hc; apply max_height_elem in Hc; lia).
        clear Hh1 Hn Hv Hout.
        transitivity (exists c0 m, c0 ∈ cs0 /\ m ∈ subnodes c0 /\
                                   malformed_block m = true).
        -- clear Hcs0 Hmal. revert cs0 Hcs.
           induction cs as [|c cs IHcs]; intros [|c0 cs0] Hcs;
             try discriminate Hcs.
           ++ simpl. split; [discriminate|].
              intros (c0 & m & Hc0 & _). now apply not_elem_of_nil in Hc0.
           ++ simpl in Hcs. injection Hcs as Hc Hcs.
              specialize (IHcs (fun d Hd => Hheights d (list_elem_of_further _ _ _ Hd))
                            cs0 Hcs).
              pose proof (IH c c0 (Hheights c (list_elem_of_here _ _)) Hc) as IHc.
              simpl.
              destruct (visit fuel pre_highlight_visitor c) as [[e|c']|] eqn:Hvc.
              ** apply visit_pre_highlight_exn in Hvc as Heq. subst e.
                 split; [|reflexivity]. intros _.
                 destruct (proj1 IHc eq_refl) as (m & Hm & Hb).
                 exists c0, m. repeat split; [left | exact Hm | exact Hb].
              ** destruct (visit_all_total (visit fuel pre_highlight_visitor) cs)
                   as [r Hr].
                 { intros d Hd. apply visit_total;
                     [apply pre_highlight_visitor_height|].
                   apply Hheights. now right. }
                 rewrite Hr in *. destruct r as [e|cs'].
                 --- split.
                     +++ intros [= ->].
                         destruct (proj1 IHcs eq_refl) as (d0 & m & Hd0 & Hm & Hb).
                         exists d0, m. repeat split; [now right | exact Hm | exact Hb].
                     +++ intros (d0 & m & Hd0 & Hm & Hb).
                         apply elem_of_cons in Hd0 as [->|Hd0].
                         *** assert (Hex : exists m, m ∈ subnodes c0 /\
                                                     malformed_block m = true)
                               by eauto.
                             apply (proj2 IHc) in Hex. discriminate Hex.
                         *** apply (proj2 IHcs). eauto.
                 --- split; [discriminate|].
                     intros (d0 & m & Hd0 & Hm & Hb).
                     apply elem_of_cons in Hd0 as [->|Hd0].
                     +++ assert (Hex : exists m, m ∈ subnodes c0 /\
                                                 malformed_block m = true)
                           by eauto.
                         apply (proj2 IHc) in Hex. discriminate Hex.
                     +++ assert (Hex : exists c0 m, c0 ∈ cs0 /\ m ∈ subnodes c0 /\
                                                    malformed_block m = true)
                           by eauto.
                         apply (proj2 IHcs) in Hex. discriminate Hex.
              ** exfalso.
                 destruct (visit_total pre_highlight_visitor
                             pre_highlight_visitor_height fuel c
                             (Hheights c (list_elem_of_here _ _))) as [r Hr].
                 congruence.
        -- split.
           ++ intros (c0 & m & Hc0 & Hm & Hb). exists m. split; [|exact Hb].
              right. apply list_elem_of_In, in_flat_map. exists c0.
              split; now apply list_elem_of_In.
           ++ intros (m & Hm & Hb). apply elem_of_cons in Hm as [->|Hm];
                [congruence|].
              apply list_elem_of_In, in_flat_map in Hm as (c0 & Hc0 & Hm).
              exists c0, m. repeat split; try exact Hb;
                now apply list_elem_of_In.
      * split; [discriminate|].
        intros (m & Hm & Hb). apply list_elem_of_singleton in Hm as ->.
        congruence.
Qed.

(** X22: the traversal before the highlighter throws exactly when the
    tree holds a [pre] element without a first child, or a [pre] element
    around a [code] element whose list of children is empty; the
    exception is a type error. *)
Theorem pre_highlight_throws_iff (tree : node) :
  (exists e, pre_highlight tree = Some (inl e)) <->
  exists m, m ∈ subnodes tree /\ malformed_block m = true.
Proof.
  rewrite <- (visit_pre_highlight_throws (height tree) tree tree)
    by (lia || reflexivity).
  unfold pre_highlight. split; [|eauto].
  intros [e H]. now rewrite (visit_pre_highlight_exn _ _ _ H) in H.
Qed.

Example empty_code_element_throws :
  pre_highlight empty_code_tree = Some (inl TypeError).
Proof. reflexivity. Qed.

(** ** The pattern of the event, the line callback *)

Lemma match_event_earlier (s before group rest : string) :
  match_event s = Some (before, group, rest) ->
  forall b t,
    s = b +:+ t -> String.length b < String.length before ->
    event_here t = None.
Proof.
  revert before. induction s as [|c s IH]; intros before H b t Hs Hlen.
  - cbn [match_event] in H. destruct (event_here ""); [|discriminate].
    destruct p. injection H as <- _ _. simpl in Hlen. lia.
  - cbn [match_event] in H.
    destruct (event_here (String c s)) as [[g r]|] eqn:E.
    + injection H as <- _ _. simpl in Hlen. lia.
    + destruct (match_event s) as [[[b0 g0] r0]|] eqn:Em; [|discriminate].
      injection H as <- <- <-.
      destruct b as [|d b].
      * rewrite append_nil_l in Hs. now subst t.
      * rewrite append_cons in Hs. injection Hs as <- ->.
        apply (IH b0 eq_refl b t eq_refl). simpl in Hlen. lia.
Qed.

(** X23: the match of the event pattern in a meta is its leftmost
    occurrence: the meta is the text before the match, [event=], the
    quoted group and the text after it; the group holds no quote; and the
    pattern does not start anywhere before.  When there is no match, the
    meta holds no occurrence of the pattern at all. *)
Theorem match_event_spec (meta : string) :
  match match_event meta with
  | Some (before, group, rest) =>
      meta = before +:+ event_head +:+ group +:+ String dquote rest /\
      occurrences dquote group = 0 /\
      forall b t,
        meta = b +:+ t -> String.length b < String.length before ->
        event_here t = None
  | None =>
      forall before group rest,
        occurrences dquote group = 0 ->
        meta <> before +:+ event_head +:+ group +:+ String dquote rest
  end.
Proof.
  destruct (match_event meta) as [[[before group] rest]|] eqn:E.
  - destruct (match_event_sound _ _ _ _ E) as [Hs Hq].
    split; [exact Hs|]. split; [exact Hq|].
    now apply match_event_earlier with (group := group) (rest := rest).
  - intros before group rest Hq ->.
    destruct (match_event_complete before group rest Hq)
      as (b & g & r & H & _).
    congruence.
Qed.

(** X24: after the line callback a line has at least one child; a line
    that had one is returned as it is, and calling the callback again
    changes nothing. *)
Theorem onVisitLine_never_empty (n n1 : node) :
  onVisitLine n = inr n1 ->
  (exists c cs, children n1 = Some (c :: cs)) /\
  (children n <> Some [] -> n1 = n) /\
  onVisitLine n1 = inr n1.
Proof.
  unfold onVisitLine.
  destruct (children n) as [[|c cs]|] eqn:Hcs; [| |discriminate].
  - intros [= <-]. simpl. repeat split; [eauto | congruence].
  - intros [= <-]. rewrite Hcs. repeat split; eauto.
Qed.

Lemma onVisitLine_never_empty_witness :
  exists n1,
    onVisitLine (element "span" ∅ None []) = inr n1 /\
    children n1 = Some [text " "].
Proof.
  eexists. split; [reflexivity|].
  destruct (onVisitLine_never_empty (element "span" ∅ None []) _ eq_refl)
    as ((c & cs & H) & _ & _).
  reflexivity.
Defined.

(** ** The paths of the document types *)

Lemma glob_match_globstar (pat : list glob_segment) (path : list string) :
  glob_match (Globstar :: pat) path =
    glob_match pat path ||
    match path with
    | segment :: path' =>
        passed_over segment && glob_match (Globstar :: pat) path'
    | [] => false
    end.
Proof. now destruct path. Qed.

Lemma glob_match_literal (a : string) (pat : list glob_segment)
    (path : list string) :
  glob_match (Literal a :: pat) (a :: path) = glob_match pat path.
Proof. simpl. now rewrite String.eqb_refl. Qed.

(** Any number of directories that are passed over, then a file name for
    the wildcard. *)
Lemma glob_match_globstar_wildcard (suffix : string) (path : list string) :
  glob_match [Globstar; Wildcard suffix] path = true <->
  exists dirs file,
    path = dirs ++ [file] /\
    Forall (fun d => passed_over d = true) dirs /\
    wildcard_match suffix file = true.
Proof.
  induction path as [|segment path IH]; rewrite glob_match_globstar.
  - simpl. split; [discriminate|].
    intros (dirs & file & H & _). now destruct dirs.
  - rewrite orb_true_iff, andb_true_iff, IH. split.
    + intros [H|[Hvis (dirs & file & -> & Hdirs & Hfile)]].
      * simpl in H. apply andb_true_iff in H as [Hfile Hnil].
        destruct path; [|discriminate].
        exists [], segment. repeat split; [constructor | exact Hfile].
      * exists (segment :: dirs), file. repeat split; [|exact Hfile].
        now constructor.
    + intros (dirs & file & H & Hdirs & Hfile).
      destruct dirs as [|d dirs]; simpl in H; injection H as -> ->.
      * left. simpl. now rewrite Hfile.
      * right. inversion Hdirs; subst. split; [assumption|].
        exists dirs, file. now repeat split.
Qed.

Lemma wildcard_match_inv (suffix file : string) :
  wildcard_match suffix file = true ->
  hidden file = false /\ ends_with suffix file = true.
Proof.
  unfold wildcard_match. intros H.
  apply andb_true_iff in H as [H Hends].
  apply andb_true_iff in H as [Hvis _].
  now apply negb_true_iff in Hvis.
Qed.

(** A path matched by a pattern of a document type. *)
Lemma matches_under (directory path : string) :
  glob_match [Literal "docs"; Literal directory; Globstar; Wildcard ".mdx"]
    (split slash path) = true ->
  exists dirs file,
    split slash path = "docs" :: directory :: dirs ++ [file] /\
    hidden file = false /\ ends_with ".mdx" file = true.
Proof.
  intros H. apply glob_match_two_literals in H as (rest & E & H).
  apply glob_match_globstar_wildcard in H as (dirs & file & -> & _ & H).
  apply wildcard_match_inv in H. eauto.
Qed.

(** *** Plain names *)

Lemma plain_char_ordinary (c : ascii) :
  plain_char c = true ->
  Ascii.eqb c "."%char = false /\ Ascii.eqb c slash = false /\
  line_terminator c = false.
Proof.
  destruct c as [[] [] [] [] [] [] [] []]; vm_compute; intros H;
    first [discriminate H | now repeat split].
Qed.

Lemma plain_name_inv (s : string) :
  plain_name s = true ->
  exists c s', s = String c s' /\ plain_char c = true /\
               every_char plain_char s' = true.
Proof.
  unfold plain_name. destruct s as [|c s']; [discriminate|]. simpl.
  intros H. apply andb_true_iff in H as [Hc Hs']. eauto.
Qed.

Lemma every_plain_char (s : string) :
  every_char plain_char s = true ->
  has_line_terminator s = false /\ occurrences slash s = 0.
Proof.
  induction s as [|c s IH]; simpl; [now split|].
  intros H. apply andb_true_iff in H as [Hc Hs].
  destruct (plain_char_ordinary c Hc) as (_ & Hslash & Hline).
  destruct (IH Hs) as [IH1 IH2]. now rewrite Hslash, Hline, IH1, IH2.
Qed.

Lemma plain_name_passed_over (d : string) :
  plain_name d = true ->
  passed_over d = true /\ occurrences slash d = 0.
Proof.
  intros H. pose proof H as Hd.
  apply plain_name_inv in Hd as (c & s' & -> & Hc & Hs').
  unfold plain_name in H. apply andb_true_iff in H as [_ H].
  destruct (every_plain_char _ H) as [Hline Hslash].
  destruct (plain_char_ordinary c Hc) as (Hdot & _ & _).
  unfold passed_over. rewrite Hline. simpl. now rewrite Hdot.
Qed.

Lemma ends_with_append (stem suffix : string) :
  ends_with suffix (stem +:+ suffix) = true.
Proof.
  induction stem as [|c stem IH].
  - rewrite append_nil_l. destruct suffix; simpl;
      now rewrite ?Ascii.eqb_refl, ?String.eqb_refl.
  - rewrite append_cons. simpl. rewrite IH. apply orb_true_r.
Qed.

Lemma occurrences_append (c : ascii) (s t : string) :
  occurrences c (s +:+ t) = occurrences c s + occurrences c t.
Proof.
  induction s as [|d s IH].
  - now rewrite append_nil_l.
  - rewrite append_cons. simpl. rewrite IH. lia.
Qed.

Lemma plain_name_file (stem : string) :
  plain_name stem = true ->
  wildcard_match ".mdx" (stem +:+ ".mdx") = true /\
  occurrences slash (stem +:+ ".mdx") = 0.
Proof.
  intros H. destruct (plain_name_passed_over stem H) as [_ Hslash].
  split; [|now rewrite occurrences_append, Hslash].
  pose proof (ends_with_append stem ".mdx") as Hends.
  apply plain_name_inv in H as (c & s' & -> & Hc & _).
  destruct (plain_char_ordinary c Hc) as (Hdot & _ & Hline).
  rewrite append_cons in Hends |- *.
  unfold wildcard_match. rewrite Hends. simpl. now rewrite Hdot, Hline.
Qed.

(** The segments of the join of pieces without the separator. *)
Lemma split_of_join (sep : ascii) (l : list string) :
  l <> [] ->
  Forall (fun t => occurrences sep t = 0) l ->
  split sep (join (String sep EmptyString) l) = l.
Proof.
  intros Hne Hall. induction Hall as [|t ts Ht Hts IH]; [congruence|].
  destruct ts as [|u ts].
  - simpl. now apply split_no_separator.
  - rewrite join_cons by discriminate.
    rewrite (append_cons sep ""), append_nil_l.
    rewrite split_append by exact Ht. f_equal. now apply IH.
Qed.

Lemma split_content_path (directory : string) (dirs : list string)
    (stem : string) :
  occurrences slash directory = 0 ->
  Forall (fun d => plain_name d = true) dirs ->
  plain_name stem = true ->
  split slash (content_path directory dirs stem)
    = "docs" :: directory :: dirs ++ [stem +:+ ".mdx"].
Proof.
  intros Hdirectory Hdirs Hstem. unfold content_path.
  apply (split_of_join slash); [discriminate|].
  constructor; [reflexivity|]. constructor; [exact Hdirectory|].
  apply Forall_app. split.
  - eapply Forall_impl; [exact Hdirs|].
    intros d Hd. now apply plain_name_passed_over in Hd.
  - constructor; [|constructor]. now apply plain_name_file in Hstem.
Qed.

Lemma content_path_matches (directory : string) (dirs : list string)
    (stem : string) :
  occurrences slash directory = 0 ->
  Forall (fun d => plain_name d = true) dirs ->
  plain_name stem = true ->
  glob_match [Literal "docs"; Literal directory; Globstar; Wildcard ".mdx"]
    (split slash (content_path directory dirs stem)) = true.
Proof.
  intros Hdirectory Hdirs Hstem.
  rewrite (split_content_path directory dirs stem Hdirectory Hdirs Hstem).
  rewrite !glob_match_literal.
  apply glob_match_globstar_wildcard.
  exists dirs, (stem +:+ ".mdx"). split; [reflexivity|]. split.
  - eapply Forall_impl; [exact Hdirs|].
    intros d Hd. now apply plain_name_passed_over in Hd.
  - now apply plain_name_file in Hstem.
Qed.

Lemma document_type_of_unfold (path : string) :
  document_type_of path =
    if matches (filePathPattern Doc) path then Some Doc
    else if matches (filePathPattern Project) path then Some Project
         else None.
Proof. reflexivity. Qed.

(** C8: there are exactly two document types, [Doc] and [Project].  Every
    file [stem.mdx] in any number of directories under [docs/components],
    the names being plain, is a [Doc], and every such file under
    [docs/projects] is a [Project].  For every path: it is a [Doc] exactly
    when [docs/components/**/*.mdx] matches it, and then its first two
    segments are [docs] and [components]; it is a [Project] exactly when
    [docs/projects/**/*.mdx] matches it, and then its first two segments
    are [docs] and [projects]; no path is matched by both patterns, and a
    path has no other type. *)
Theorem document_type_by_directory
    (dirs : list string) (stem path : string) :
  Forall (fun d => plain_name d = true) dirs ->
  plain_name stem = true ->
  documentTypes = [Doc; Project] /\
  document_type_of (content_path "components" dirs stem) = Some Doc /\
  document_type_of (content_path "projects" dirs stem) = Some Project /\
  (matches (filePathPattern Doc) path = true <->
   document_type_of path = Some Doc) /\
  (matches (filePathPattern Project) path = true <->
   document_type_of path = Some Project) /\
  (document_type_of path = Some Doc ->
   exists rest, split slash path = "docs" :: "components" :: rest) /\
  (document_type_of path = Some Project ->
   exists rest, split slash path = "docs" :: "projects" :: rest) /\
  ~ (matches (filePathPattern Doc) path = true /\
     matches (filePathPattern Project) path = true) /\
  (forall t, document_type_of path = Some t -> t = Doc \/ t = Project).
Proof.
  intros Hdirs Hstem.
  assert (Hdisjoint : forall p,
            ~ (matches (filePathPattern Doc) p = true /\
               matches (filePathPattern Project) p = true)).
  { intros p [HD HP].
    apply matches_Doc_under in HD as [r1 E1].
    apply matches_Project_under in HP as [r2 E2].
    rewrite E1 in E2. discriminate E2. }
  assert (HDoc : matches (filePathPattern Doc)
                   (content_path "components" dirs stem) = true).
  { unfold matches. rewrite Doc_glob.
    now apply content_path_matches. }
  assert (HProject : matches (filePathPattern Project)
                       (content_path "projects" dirs stem) = true).
  { unfold matches. rewrite Project_glob.
    now apply content_path_matches. }
  split; [reflexivity|].
  split; [now rewrite document_type_of_unfold, HDoc|].
  split.
  { rewrite document_type_of_unfold, HProject.
    destruct (matches (filePathPattern Doc)
                (content_path "projects" dirs stem)) eqn:E; [|reflexivity].
    exfalso. apply (Hdisjoint (content_path "projects" dirs stem)).
    now split. }
  specialize (Hdisjoint path).
  rewrite document_type_of_unfold.
  destruct (matches (filePathPattern Doc) path) eqn:ED;
    destruct (matches (filePathPattern Project) path) eqn:EP;
    try (exfalso; apply Hdisjoint; split; reflexivity);
    repeat split; try congruence; try discriminate;
    try (intros t Ht; inversion Ht; subst; tauto);
    try (intros [? ?]; discriminate).
  - intros _. now apply matches_Doc_under.
  - intros _. now apply matches_Project_under.
Qed.

Lemma document_type_by_directory_witness :
  document_type_of "docs/components/ui/button.mdx" = Some Doc /\
  document_type_of "docs/projects/ui/button.mdx" = Some Project /\
  document_type_of "docs/guides/intro.mdx" = None.
Proof.
  destruct (document_type_by_directory ["ui"] "button" "docs/guides/intro.mdx")
    as (_ & HDoc & HProject & _).
  - repeat constructor.
  - reflexivity.
  - split; [exact HDoc|]. split; [exact HProject | reflexivity].
Defined.

(** X25: a content file that has a document type lies under
    [docs/components] (a [Doc]) or under [docs/projects] (a [Project]), in
    any number of directories, and its file name does not start with a dot
    and ends in [.mdx]. *)
Theorem typed_path_shape (path : string) (t : DocumentType) :
  document_type_of path = Some t ->
  exists directory dirs file,
    (t, directory) ∈ [(Doc, "components"); (Project, "projects")] /\
    split slash path = "docs" :: directory :: dirs ++ [file] /\
    hidden file = false /\
    ends_with ".mdx" file = true.
Proof.
  rewrite document_type_of_unfold. unfold matches.
  rewrite Doc_glob, Project_glob.
  destruct (glob_match (Literal "docs" :: Literal "components" :: _) _)
    eqn:ED.
  - intros [= <-]. apply matches_under in ED as (dirs & file & H).
    exists "components", dirs, file. split; [left | exact H].
  - destruct (glob_match (Literal "docs" :: Literal "projects" :: _) _)
      eqn:EP; [|discriminate].
    intros [= <-]. apply matches_under in EP as (dirs & file & H).
    exists "projects", dirs, file. split; [right; left | exact H].
Qed.

Lemma typed_path_shape_witness :
  exists directory dirs file,
    (Doc, directory) ∈ [(Doc, "components"); (Project, "projects")] /\
    split slash "docs/components/ui/button.mdx"
      = "docs" :: directory :: dirs ++ [file] /\
    hidden file = false /\
    ends_with ".mdx" file = true.
Proof.
  apply (typed_path_shape "docs/components/ui/button.mdx" Doc).
  reflexivity.
Defined.

(** ** From the inputs of the page to the service *)

(** Every field of the form holds a string, whatever was typed. *)
Lemma form_after_strings (edits : list (string * string)) (key : string) :
  key ∈ form_keys -> exists s, get (form_after edits) key = JStr s.
Proof.
  intros Hkey. unfold form_after.
  assert (H : forall form,
             (exists s, get form key = JStr s) ->
             exists s, get (fold_left type_into edits form) key = JStr s).
  { induction edits as [|[k text] edits IH]; intros form Hform; [exact Hform|].
    simpl. apply IH. destruct Hform as [s Hs].
    destruct form as [| | | | |m]; try discriminate Hs.
    simpl in *. destruct (decide (k = key)) as [->|Hne].
    - rewrite lookup_insert_eq. eauto.
    - rewrite lookup_insert_ne by exact Hne. eauto. }
  apply H. unfold form_keys in Hkey.
  repeat (apply elem_of_cons in Hkey as [->|Hkey]; [now exists ""|]).
  now apply not_elem_of_nil in Hkey.
Qed.

(** X26: values submitted through the inputs of the page, which start from
    [defaultValues] and hold what was typed, have every field present:
    when the client-side schema accepts them, the body the page posts
    passes the server-side schema, and the record for [createCoffeeInfo]
    holds the values of the form. *)
Theorem page_values_pass_server
    (edits : list (string * string)) (values : FormValues)
    (field_value : CoffeeInfoField -> string) :
  resolve (form_after edits) = success values ->
  exists coffeeInfo,
    info_of_values values = Some coffeeInfo /\
    safeParse (CoffeeInfoDTO field_value (dto_literal (json_of_values values)))
      = success coffeeInfo.
Proof.
  intros H.
  apply resolve_success_inv in H as (_ & _ & _ & _ & Hr & Hf & Hv & Hp & Hs).
  destruct (form_after_strings edits "region") as [r Er]; [set_solver|].
  destruct (form_after_strings edits "farm") as [f Ef]; [set_solver|].
  destruct (form_after_strings edits "variety") as [v Ev]; [set_solver|].
  destruct (form_after_strings edits "process") as [p' Ep]; [set_solver|].
  destruct (form_after_strings edits "source") as [s' Es]; [set_solver|].
  rewrite Er in Hr. rewrite Ef in Hf. rewrite Ev in Hv. rewrite Ep in Hp.
  rewrite Es in Hs.
  pose proof (CoffeeInfoDTO_json_of_values field_value values) as Hserver.
  destruct values as [nk ne nt [r0|] [f0|] [v0|] [p0|] [s0|]];
    try discriminate.
  simpl in Hserver. eexists. split; [reflexivity | exact Hserver].
Qed.

Lemma page_values_pass_server_witness :
  exists coffeeInfo,
    info_of_values
      (mkFormValues "Yirgacheffe" "" "Floral,Sweet"
         (Some "") (Some "") (Some "") (Some "") (Some ""))
      = Some coffeeInfo /\
    safeParse (CoffeeInfoDTO sample_field_value
                 (dto_literal
                    (json_of_values
                       (mkFormValues "Yirgacheffe" "" "Floral,Sweet"
                          (Some "") (Some "") (Some "") (Some "") (Some "")))))
      = success coffeeInfo.
Proof.
  apply (page_values_pass_server sample_edits
           (mkFormValues "Yirgacheffe" "" "Floral,Sweet"
              (Some "") (Some "") (Some "") (Some "") (Some ""))
           sample_field_value).
  reflexivity.
Defined.

(** What a field holds after the edits is what it held before or what one
    of the edits typed into it. *)
Lemma type_into_get (edits : list (string * string)) (form : jsval)
    (key : string) :
  is_object form = true ->
  get (fold_left type_into edits form) key = get form key \/
  exists s, get (fold_left type_into edits form) key = JStr s /\
            (key, s) ∈ edits.
Proof.
  revert form. induction edits as [|[k text] edits IH]; intros form Hobj;
    [now left|].
  destruct form as [| | | | |m]; try discriminate Hobj. simpl.
  destruct (IH (JObj (<[k := JStr text]> m)) eq_refl) as [H|(s & H & Hin)].
  - rewrite H. simpl. destruct (decide (k = key)) as [->|Hne].
    + right. exists text. rewrite lookup_insert_eq. split; [reflexivity | left].
    + left. now rewrite lookup_insert_ne.
  - right. exists s. split; [exact H | now right].
Qed.

(** X27: the page accepts a form only after a non-empty name was typed
    into [name_kr] and a text with a comma into [note]: the untouched
    defaults never pass. *)
Theorem page_accepts_only_typed (edits : list (string * string)) :
  form_accepts (form_after edits) ->
  (exists name, ("name_kr", name) ∈ edits /\ name <> "") /\
  (exists text, ("note", text) ∈ edits /\ includes comma text = true).
Proof.
  intros H. apply form_accepts_conditions in H
    as ((nk & Hkr & Hnk) & _ & (nt & Hnote & Hc) & _).
  unfold form_after in *. split.
  - destruct (type_into_get edits defaultValues "name_kr" eq_refl)
      as [E|(s & E & Hin)]; rewrite E in Hkr.
    + change (get defaultValues "name_kr") with (JStr "") in Hkr.
      injection Hkr as <-. congruence.
    + injection Hkr as <-. eauto.
  - destruct (type_into_get edits defaultValues "note" eq_refl)
      as [E|(s & E & Hin)]; rewrite E in Hnote.
    + change (get defaultValues "note") with (JStr "") in Hnote.
      injection Hnote as <-. discriminate Hc.
    + injection Hnote as <-. eauto.
Qed.

Lemma page_accepts_only_typed_witness :
  (exists name, ("name_kr", name) ∈ sample_edits /\ name <> "") /\
  (exists text, ("note", text) ∈ sample_edits /\ includes comma text = true).
Proof.
  apply (page_accepts_only_typed sample_edits).
  eexists. reflexivity.
Defined.
